(** * SPSC lock-free queues: [SPSCQueue] and [SPSCQueueOPT]

    A shallow embedding of the two ring-buffer queues of the repository
    ([SPSCQueue.h] and its flag-per-block sibling [SPSCQueueOPT]) and the
    properties of their single-producer / single-consumer protocol.

    Conventions of the embedding:
    - a [uint32_t] is a [Z] in [0, 2^32); every C++ arithmetic operation is
      followed by [wrap32];
    - [std::array<T, CNT>] is a [list] of length [CNT], read with [!!] and
      updated in place with [alter];
    - a slot pointer [T*] is the index of the slot, [nullptr] is [None];
    - the two threads are modelled by interleaving their shared-memory
      accesses (sequentially consistent steps); the memory-ordering
      annotations of the atomics have no counterpart here. *)

From Stdlib Require Import ZArith Lia.
From stdpp Require Import base tactics option list.

Local Open Scope Z_scope.

(** ** 32-bit unsigned arithmetic *)

Definition wrap32 (z : Z) : Z := z mod 2 ^ 32.

(** [static_assert(CNT && !(CNT & (CNT - 1)))] on a [uint32_t] template
    parameter. *)
Definition static_assert_CNT (CNT : Z) : bool :=
  (0 <=? CNT) && (CNT <? 2 ^ 32) &&
  negb (CNT =? 0) && (Z.land CNT (wrap32 (CNT - 1)) =? 0).

(** ** Programs over a mutable object with a log of observable events

    The member functions mutate [*this]; the callbacks handed to
    [tryPush] / [tryPop] are observable through the log. *)

Definition Prog (St Ev A : Type) : Type := St → list Ev → A * St * list Ev.

Global Instance Prog_ret {St Ev} : MRet (Prog St Ev) :=
  λ A a s l, (a, s, l).
Global Instance Prog_bind {St Ev} : MBind (Prog St Ev) :=
  λ A B f m s l, let '(a, s', l') := m s l in f a s' l'.

Definition emit {St Ev} (e : Ev) : Prog St Ev unit :=
  λ s l, (tt, s, l ++ [e]).
Definition call {St Ev A} (f : St → A * St) : Prog St Ev A :=
  λ s l, let '(a, s') := f s in (a, s', l).

(** Events of one queue object: every member function logs its own call,
    the callbacks log the pointer they were given. *)
Inductive event : Type :=
  | EvAlloc (r : option Z)
  | EvWriter (p : Z)
  | EvPush
  | EvFront (r : option Z)
  | EvReader (p : Z)
  | EvPop.

(** ** The abstract FIFO list of the specification

    The queue of the specification: elements enter at the back of a list
    and leave from its front. *)

Module FIFO.
Definition push {T : Type} (v : T) (l : list T) : list T := l ++ [v].
Definition pop {T : Type} (l : list T) : option (T * list T) :=
  match l with
  | [] => None
  | v :: l' => Some (v, l')
  end.
End FIFO.

(** ** [SPSCQueue]: two 32-bit cursors *)

Module SPSCQueue.
Section SPSCQueue.
Variable T : Type.
Variable CNT : Z.

Record queue : Type := Queue {
  data : list T;
  write_idx : Z;
  read_idx_cach : Z;
  read_idx : Z
}.

Definition MASK : Z := wrap32 (CNT - 1).

(** Default member initialisers; the array starts with arbitrary
    contents [d]. *)
Definition init (d : list T) : queue := Queue d 0 0 0.

Definition alloc (q : queue) : option Z * queue :=
  if wrap32 (write_idx q - read_idx_cach q) =? CNT then
    let q1 := Queue (data q) (write_idx q) (read_idx q) (read_idx q) in
    if wrap32 (write_idx q1 - read_idx_cach q1) =? CNT then (None, q1)
    else (Some (Z.land (write_idx q1) MASK), q1)
  else (Some (Z.land (write_idx q) MASK), q).

Definition push (q : queue) : queue :=
  Queue (data q) (wrap32 (write_idx q + 1)) (read_idx_cach q) (read_idx q).

Definition front (q : queue) : option Z :=
  if read_idx q =? write_idx q then None
  else Some (Z.land (read_idx q) MASK).

Definition pop (q : queue) : queue :=
  Queue (data q) (write_idx q) (read_idx_cach q) (wrap32 (read_idx q + 1)).

(** A callback working in place on the slot behind pointer [p]. *)
Definition apply_slot (f : T → T) (p : Z) (q : queue) : queue :=
  Queue (alter f (Z.to_nat p) (data q))
        (write_idx q) (read_idx_cach q) (read_idx q).

(** *** The member functions as programs *)

Definition P : Type → Type := Prog queue event.

Definition alloc_ : P (option Z) :=
  r ← call alloc; emit (EvAlloc r);; mret r.
Definition push_ : P unit :=
  call (λ q, (tt, push q));; emit EvPush.
Definition front_ : P (option Z) :=
  r ← call (λ q, (front q, q)); emit (EvFront r);; mret r.
Definition pop_ : P unit :=
  call (λ q, (tt, pop q));; emit EvPop.
Definition writer_ (writer : T → T) (p : Z) : P unit :=
  call (λ q, (tt, apply_slot writer p q));; emit (EvWriter p).
Definition reader_ (reader : T → T) (p : Z) : P unit :=
  call (λ q, (tt, apply_slot reader p q));; emit (EvReader p).

Definition tryPush (writer : T → T) : P bool :=
  p ← alloc_;
  match p with
  | None => mret false
  | Some p => writer_ writer p;; push_;; mret true
  end.

(** [while (!tryPush(writer)) ;] with the number of iterations bounded
    by [fuel]; [None] when the fuel runs out before a call succeeds. *)
Fixpoint blockPush (fuel : nat) (writer : T → T) : P (option unit) :=
  match fuel with
  | O => mret None
  | S fuel' =>
      b ← tryPush writer;
      if b : bool then mret (Some tt) else blockPush fuel' writer
  end.

Definition tryPop (reader : T → T) : P bool :=
  v ← front_;
  match v with
  | None => mret false
  | Some v => reader_ reader v;; pop_;; mret true
  end.

(** *** The two threads, interleaved

    Every member function touches shared memory once ([alloc] loads
    [read_idx], [push] stores [write_idx], [front] loads [write_idx],
    [pop] stores [read_idx]), so a step of the system is one member
    function call or one write through the pointer held by the
    producer.  [reserved] is the pointer of the producer's last
    successful [alloc] not yet followed by [push]; [fronted] is the
    pointer of the consumer's last successful [front] not yet followed
    by [pop].  [pushed] and [popped] are histories: the contents of the
    slot at each [push], and at each [pop]. *)

Inductive label : Type :=
  | LAlloc
  | LWrite (v : T)
  | LPush
  | LFront
  | LPop.

Record system : Type := System {
  mq : queue;
  reserved : option Z;
  fronted : option Z;
  pushed : list T;
  popped : list T
}.

Definition start (d : list T) : system := System (init d) None None [] [].

(** [None]: the call is not allowed by the interface contract ([push]
    without a reservation, [pop] without a front), or it reads outside
    of the array. *)
Definition step (l : label) (s : system) : option system :=
  match l with
  | LAlloc =>
      let '(r, q) := alloc (mq s) in
      Some (System q r (fronted s) (pushed s) (popped s))
  | LWrite v =>
      p ← reserved s;
      _ ← data (mq s) !! Z.to_nat p;
      Some (System (apply_slot (λ _, v) p (mq s))
                   (reserved s) (fronted s) (pushed s) (popped s))
  | LPush =>
      p ← reserved s;
      v ← data (mq s) !! Z.to_nat p;
      Some (System (push (mq s)) None (fronted s)
                   (pushed s ++ [v]) (popped s))
  | LFront =>
      Some (System (mq s) (reserved s) (front (mq s))
                   (pushed s) (popped s))
  | LPop =>
      p ← fronted s;
      v ← data (mq s) !! Z.to_nat p;
      Some (System (pop (mq s)) (reserved s) None
                   (pushed s) (popped s ++ [v]))
  end.

Fixpoint run (ls : list label) (s : system) : option system :=
  match ls with
  | [] => Some s
  | l :: ls' => s' ← step l s; run ls' s'
  end.

(** Whether the interface contract allows call [l] in state [s]. *)
Definition allowed (l : label) (s : system) : bool :=
  match l with
  | LAlloc | LFront => true
  | LWrite _ | LPush => bool_decide (is_Some (reserved s))
  | LPop => bool_decide (is_Some (fronted s))
  end.

(** [n] times [alloc(); push();], stopping at the first [nullptr]. *)
Fixpoint push_n (n : nat) (q : queue) : option queue :=
  match n with
  | O => Some q
  | S n' =>
      match alloc q with
      | (Some _, q1) => push_n n' (push q1)
      | (None, _) => None
      end
  end.

(** *** The invariant of the interleaved system

    The histories give the unbounded positions of the two cursors:
    [npushed] elements were published, [npopped] were released. *)

Definition npushed (s : system) : Z := Z.of_nat (length (pushed s)).
Definition npopped (s : system) : Z := Z.of_nat (length (popped s)).

Record inv (s : system) : Prop := Inv {
  inv_len : Z.of_nat (length (data (mq s))) = CNT;
  inv_write : write_idx (mq s) = wrap32 (npushed s);
  inv_read : read_idx (mq s) = wrap32 (npopped s);
  inv_cach :
    ∃ c, 0 ≤ c ≤ npopped s ∧ read_idx_cach (mq s) = wrap32 c ∧
         npushed s - c ≤ CNT ∧
         (is_Some (reserved s) → npushed s - c < CNT);
  inv_le : npopped s ≤ npushed s;
  inv_reserved : ∀ p, reserved s = Some p → p = npushed s mod CNT;
  inv_fronted :
    ∀ p, fronted s = Some p →
         p = npopped s mod CNT ∧ npopped s < npushed s;
  inv_data :
    ∀ i, npopped s ≤ i < npushed s →
         data (mq s) !! Z.to_nat (i mod CNT) = pushed s !! Z.to_nat i;
  inv_popped : popped s = take (length (popped s)) (pushed s)
}.

(** The elements in flight, read from the array between the two
    cursors, oldest first. *)
Definition slot_at (q : queue) (k : Z) : option T :=
  data q !! Z.to_nat (Z.land (wrap32 (read_idx q + k)) MASK).
Definition contents (q : queue) : list T :=
  omap (slot_at q) (seqZ 0 (wrap32 (write_idx q - read_idx q))).

(** What a step of the system is for the abstract FIFO list: [push]
    appends the contents of the reserved slot, [pop] removes the head,
    which is the contents of the slot the consumer holds; the other
    steps leave the list as it is. *)
Definition refines_step (l : label) (s s' : system) : Prop :=
  match l with
  | LPush =>
      ∃ p v, reserved s = Some p ∧ data (mq s) !! Z.to_nat p = Some v ∧
             contents (mq s') = FIFO.push v (contents (mq s))
  | LPop =>
      ∃ p v, fronted s = Some p ∧ data (mq s) !! Z.to_nat p = Some v ∧
             FIFO.pop (contents (mq s)) = Some (v, contents (mq s'))
  | _ => contents (mq s') = contents (mq s)
  end.

End SPSCQueue.

Arguments Queue {T}.
Arguments data {T}.
Arguments write_idx {T}.
Arguments read_idx_cach {T}.
Arguments read_idx {T}.
Arguments init {T}.
Arguments alloc {T}.
Arguments push {T}.
Arguments front {T}.
Arguments pop {T}.
Arguments apply_slot {T}.
Arguments tryPush {T}.
Arguments blockPush {T}.
Arguments tryPop {T}.
Arguments LAlloc {T}.
Arguments LWrite {T}.
Arguments LPush {T}.
Arguments LFront {T}.
Arguments LPop {T}.
Arguments System {T}.
Arguments mq {T}.
Arguments reserved {T}.
Arguments fronted {T}.
Arguments pushed {T}.
Arguments popped {T}.
Arguments start {T}.
Arguments step {T}.
Arguments run {T}.
Arguments allowed {T}.
Arguments push_n {T}.
Arguments npushed {T}.
Arguments npopped {T}.
Arguments inv {T}.
Arguments slot_at {T}.
Arguments contents {T}.
Arguments refines_step {T}.
End SPSCQueue.

(** ** [SPSCQueueOPT]: one availability flag per block *)

Module SPSCQueueOPT.
Section SPSCQueueOPT.
Variable T : Type.
Variable CNT : Z.

Record Block : Type := mkBlock {
  avail : bool;
  data : T
}.

Record queue : Type := Queue {
  blk : list Block;
  write_idx : Z;
  free_write_cnt : Z;
  read_idx : Z
}.

Definition MASK : Z := wrap32 (CNT - 1).

(** Default member initialisers: every flag is [false],
    [free_write_cnt = CNT - 1]; the data starts with arbitrary
    contents [d]. *)
Definition init (d : list T) : queue :=
  Queue (mkBlock false <$> d) 0 (wrap32 (CNT - 1)) 0.

Definition set_avail (b : bool) (k : Block) : Block := mkBlock b (data k).
Definition set_data (f : T → T) (k : Block) : Block :=
  mkBlock (avail k) (f (data k)).

Definition alloc (q : queue) : option Z * queue :=
  if free_write_cnt q =? 0 then
    let rd_idx := read_idx q in
    let q1 :=
      Queue (blk q) (write_idx q)
            (Z.land (wrap32 (wrap32 (wrap32 (rd_idx - write_idx q) + CNT) - 1))
                    MASK)
            (read_idx q) in
    if free_write_cnt q1 =? 0 then (None, q1)
    else (Some (write_idx q1), q1)
  else (Some (write_idx q), q).

Definition push (q : queue) : queue :=
  Queue (alter (set_avail true) (Z.to_nat (write_idx q)) (blk q))
        (Z.land (wrap32 (write_idx q + 1)) MASK)
        (wrap32 (free_write_cnt q - 1))
        (read_idx q).

(** Reading [blk[read_idx]] outside of the array has no defined
    behaviour in the source; the embedding answers [None] there. *)
Definition front (q : queue) : option Z :=
  match blk q !! Z.to_nat (read_idx q) with
  | Some cur_blk => if avail cur_blk then Some (read_idx q) else None
  | None => None
  end.

(** The two statements of [pop], in program order. *)
Definition pop_avail (q : queue) : queue :=
  Queue (alter (set_avail false) (Z.to_nat (read_idx q)) (blk q))
        (write_idx q) (free_write_cnt q) (read_idx q).
Definition pop_read_idx (q : queue) : queue :=
  Queue (blk q) (write_idx q) (free_write_cnt q)
        (Z.land (wrap32 (read_idx q + 1)) MASK).
Definition pop (q : queue) : queue := pop_read_idx (pop_avail q).

Definition apply_slot (f : T → T) (p : Z) (q : queue) : queue :=
  Queue (alter (set_data f) (Z.to_nat p) (blk q))
        (write_idx q) (free_write_cnt q) (read_idx q).

(** *** The member functions as programs *)

Definition P : Type → Type := Prog queue event.

Definition alloc_ : P (option Z) :=
  r ← call alloc; emit (EvAlloc r);; mret r.
Definition push_ : P unit :=
  call (λ q, (tt, push q));; emit EvPush.
Definition front_ : P (option Z) :=
  r ← call (λ q, (front q, q)); emit (EvFront r);; mret r.
Definition pop_ : P unit :=
  call (λ q, (tt, pop q));; emit EvPop.
Definition writer_ (writer : T → T) (p : Z) : P unit :=
  call (λ q, (tt, apply_slot writer p q));; emit (EvWriter p).
Definition reader_ (reader : T → T) (p : Z) : P unit :=
  call (λ q, (tt, apply_slot reader p q));; emit (EvReader p).

Definition tryPush (writer : T → T) : P bool :=
  p ← alloc_;
  match p with
  | None => mret false
  | Some p => writer_ writer p;; push_;; mret true
  end.

Fixpoint blockPush (fuel : nat) (writer : T → T) : P (option unit) :=
  match fuel with
  | O => mret None
  | S fuel' =>
      b ← tryPush writer;
      if b : bool then mret (Some tt) else blockPush fuel' writer
  end.

Definition tryPop (reader : T → T) : P bool :=
  v ← front_;
  match v with
  | None => mret false
  | Some v => reader_ reader v;; pop_;; mret true
  end.

(** *** The two threads, interleaved

    [alloc] loads [read_idx] once, [push] stores one flag, [front]
    loads one flag; [pop] makes two stores to shared memory (the flag,
    then [read_idx]) and is split in two steps, between which the
    producer may run.  [popping] holds between the two; the element is
    entered in [popped] when [pop] completes. *)

Inductive label : Type :=
  | LAlloc
  | LWrite (v : T)
  | LPush
  | LFront
  | LPopAvail
  | LPopReadIdx.

Record system : Type := System {
  mq : queue;
  reserved : option Z;
  fronted : option Z;
  popping : bool;
  pushed : list T;
  popped : list T
}.

Definition start (d : list T) : system :=
  System (init d) None None false [] [].

Definition step (l : label) (s : system) : option system :=
  match l with
  | LAlloc =>
      let '(r, q) := alloc (mq s) in
      Some (System q r (fronted s) (popping s) (pushed s) (popped s))
  | LWrite v =>
      p ← reserved s;
      _ ← blk (mq s) !! Z.to_nat p;
      Some (System (apply_slot (λ _, v) p (mq s))
                   (reserved s) (fronted s) (popping s)
                   (pushed s) (popped s))
  | LPush =>
      p ← reserved s;
      k ← blk (mq s) !! Z.to_nat p;
      Some (System (push (mq s)) None (fronted s) (popping s)
                   (pushed s ++ [data k]) (popped s))
  | LFront =>
      if popping s then None
      else Some (System (mq s) (reserved s) (front (mq s)) false
                        (pushed s) (popped s))
  | LPopAvail =>
      if popping s then None
      else
        p ← fronted s;
        _ ← blk (mq s) !! Z.to_nat p;
        Some (System (pop_avail (mq s)) (reserved s) (fronted s) true
                     (pushed s) (popped s))
  | LPopReadIdx =>
      if popping s
      then
        p ← fronted s;
        k ← blk (mq s) !! Z.to_nat p;
        Some (System (pop_read_idx (mq s)) (reserved s) None false
                     (pushed s) (popped s ++ [data k]))
      else None
  end.

Fixpoint run (ls : list label) (s : system) : option system :=
  match ls with
  | [] => Some s
  | l :: ls' => s' ← step l s; run ls' s'
  end.

Definition allowed (l : label) (s : system) : bool :=
  match l with
  | LAlloc => true
  | LWrite _ | LPush => bool_decide (is_Some (reserved s))
  | LFront => negb (popping s)
  | LPopAvail => bool_decide (is_Some (fronted s)) && negb (popping s)
  | LPopReadIdx => popping s
  end.

(** [n] times [alloc(); push();], stopping at the first [nullptr]. *)
Fixpoint push_n (n : nat) (q : queue) : option queue :=
  match n with
  | O => Some q
  | S n' =>
      match alloc q with
      | (Some _, q1) => push_n n' (push q1)
      | (None, _) => None
      end
  end.

(** *** The invariant of the interleaved system

    [npushed] elements were published and [npopped] were released;
    [ncleared] counts the flags reset by the consumer, one more than
    [npopped] in the middle of a [pop]. *)

Definition npushed (s : system) : Z := Z.of_nat (length (pushed s)).
Definition npopped (s : system) : Z := Z.of_nat (length (popped s)).
Definition ncleared (s : system) : Z :=
  npopped s + (if popping s then 1 else 0).

Record inv (s : system) : Prop := Inv {
  inv_len : Z.of_nat (length (blk (mq s))) = CNT;
  inv_write : write_idx (mq s) = npushed s mod CNT;
  inv_read : read_idx (mq s) = npopped s mod CNT;
  inv_le : ncleared s ≤ npushed s;
  inv_free :
    0 ≤ free_write_cnt (mq s) ∧
    free_write_cnt (mq s) + (npushed s - npopped s) ≤ CNT - 1;
  inv_reserved :
    ∀ p, reserved s = Some p →
         p = npushed s mod CNT ∧ 1 ≤ free_write_cnt (mq s);
  inv_fronted :
    ∀ p, fronted s = Some p →
         p = npopped s mod CNT ∧ npopped s < npushed s;
  inv_popping : popping s = true → is_Some (fronted s);
  inv_avail_true :
    ∀ i, ncleared s ≤ i < npushed s →
         avail <$> blk (mq s) !! Z.to_nat (i mod CNT) = Some true;
  inv_avail_false :
    ∀ i, npushed s ≤ i < ncleared s + CNT →
         avail <$> blk (mq s) !! Z.to_nat (i mod CNT) = Some false;
  inv_data :
    ∀ i, npopped s ≤ i < npushed s →
         data <$> blk (mq s) !! Z.to_nat (i mod CNT) =
         pushed s !! Z.to_nat i;
  inv_popped : popped s = take (length (popped s)) (pushed s)
}.

(** The elements in flight, read from the blocks between the two
    indices, oldest first. *)
Definition slot_at (q : queue) (k : Z) : option T :=
  data <$> blk q !! Z.to_nat (Z.land (wrap32 (read_idx q + k)) MASK).
Definition contents (q : queue) : list T :=
  omap (slot_at q)
       (seqZ 0 (Z.land (wrap32 (write_idx q - read_idx q)) MASK)).

(** [push] appends the contents of the reserved block; the element
    leaves the list when [pop] stores [read_idx]. *)
Definition refines_step (l : label) (s s' : system) : Prop :=
  match l with
  | LPush =>
      ∃ p k, reserved s = Some p ∧ blk (mq s) !! Z.to_nat p = Some k ∧
             contents (mq s') = FIFO.push (data k) (contents (mq s))
  | LPopReadIdx =>
      ∃ p k, fronted s = Some p ∧ blk (mq s) !! Z.to_nat p = Some k ∧
             FIFO.pop (contents (mq s)) = Some (data k, contents (mq s'))
  | _ => contents (mq s') = contents (mq s)
  end.

End SPSCQueueOPT.

Arguments mkBlock {T}.
Arguments avail {T}.
Arguments data {T}.
Arguments Queue {T}.
Arguments blk {T}.
Arguments write_idx {T}.
Arguments free_write_cnt {T}.
Arguments read_idx {T}.
Arguments init {T}.
Arguments set_avail {T}.
Arguments set_data {T}.
Arguments alloc {T}.
Arguments push {T}.
Arguments front {T}.
Arguments pop_avail {T}.
Arguments pop_read_idx {T}.
Arguments pop {T}.
Arguments apply_slot {T}.
Arguments tryPush {T}.
Arguments blockPush {T}.
Arguments tryPop {T}.
Arguments LAlloc {T}.
Arguments LWrite {T}.
Arguments LPush {T}.
Arguments LFront {T}.
Arguments LPopAvail {T}.
Arguments LPopReadIdx {T}.
Arguments System {T}.
Arguments mq {T}.
Arguments reserved {T}.
Arguments fronted {T}.
Arguments popping {T}.
Arguments pushed {T}.
Arguments popped {T}.
Arguments start {T}.
Arguments step {T}.
Arguments run {T}.
Arguments allowed {T}.
Arguments push_n {T}.
Arguments npushed {T}.
Arguments npopped {T}.
Arguments ncleared {T}.
Arguments inv {T}.
Arguments slot_at {T}.
Arguments contents {T}.
Arguments refines_step {T}.
End SPSCQueueOPT.

(** ** Example runs

    Interleavings of the two threads on queues of four [Z] slots, used to
    exercise the properties below on concrete inputs. *)

Definition SPSC_example_run : list (SPSCQueue.label Z) :=
  [SPSCQueue.LAlloc; SPSCQueue.LWrite 7; SPSCQueue.LPush;
   SPSCQueue.LFront; SPSCQueue.LAlloc; SPSCQueue.LWrite 8;
   SPSCQueue.LPop; SPSCQueue.LPush; SPSCQueue.LAlloc; SPSCQueue.LPush].

Definition OPT_example_run : list (SPSCQueueOPT.label Z) :=
  [SPSCQueueOPT.LAlloc; SPSCQueueOPT.LWrite 7; SPSCQueueOPT.LPush;
   SPSCQueueOPT.LFront; SPSCQueueOPT.LPopAvail; SPSCQueueOPT.LAlloc;
   SPSCQueueOPT.LWrite 8; SPSCQueueOPT.LPush; SPSCQueueOPT.LPopReadIdx;
   SPSCQueueOPT.LAlloc; SPSCQueueOPT.LPush].

(** Three elements go through the queue and a fourth one is published:
    [read_idx] is then [3]. *)
Definition OPT_wrap_run : list (SPSCQueueOPT.label Z) :=
  [SPSCQueueOPT.LAlloc; SPSCQueueOPT.LWrite 1; SPSCQueueOPT.LPush;
   SPSCQueueOPT.LFront; SPSCQueueOPT.LPopAvail; SPSCQueueOPT.LPopReadIdx;
   SPSCQueueOPT.LAlloc; SPSCQueueOPT.LWrite 2; SPSCQueueOPT.LPush;
   SPSCQueueOPT.LFront; SPSCQueueOPT.LPopAvail; SPSCQueueOPT.LPopReadIdx;
   SPSCQueueOPT.LAlloc; SPSCQueueOPT.LWrite 3; SPSCQueueOPT.LPush;
   SPSCQueueOPT.LFront; SPSCQueueOPT.LPopAvail; SPSCQueueOPT.LPopReadIdx;
   SPSCQueueOPT.LAlloc; SPSCQueueOPT.LWrite 4; SPSCQueueOPT.LPush].

(** The only runs of a queue of one slot: calls that fail. *)
Definition OPT_one_run_example : list (SPSCQueueOPT.label Z) :=
  [SPSCQueueOPT.LAlloc; SPSCQueueOPT.LFront; SPSCQueueOPT.LAlloc].

(** Runs that fill the queues: four elements, respectively three. *)
Definition SPSC_full_run : list (SPSCQueue.label Z) :=
  [SPSCQueue.LAlloc; SPSCQueue.LWrite 1; SPSCQueue.LPush;
   SPSCQueue.LAlloc; SPSCQueue.LWrite 2; SPSCQueue.LPush;
   SPSCQueue.LAlloc; SPSCQueue.LWrite 3; SPSCQueue.LPush;
   SPSCQueue.LAlloc; SPSCQueue.LWrite 4; SPSCQueue.LPush].

Definition OPT_full_run : list (SPSCQueueOPT.label Z) :=
  [SPSCQueueOPT.LAlloc; SPSCQueueOPT.LWrite 1; SPSCQueueOPT.LPush;
   SPSCQueueOPT.LAlloc; SPSCQueueOPT.LWrite 2; SPSCQueueOPT.LPush;
   SPSCQueueOPT.LAlloc; SPSCQueueOPT.LWrite 3; SPSCQueueOPT.LPush].

(** ** Arithmetic of cursors *)

Lemma wrap32_small z : 0 ≤ z < 2 ^ 32 → wrap32 z = z.
Proof. intros. unfold wrap32. by apply Z.mod_small. Qed.

Lemma wrap32_add_l a b : wrap32 (wrap32 a + b) = wrap32 (a + b).
Proof. unfold wrap32. apply Zplus_mod_idemp_l. Qed.

Lemma wrap32_sub_l a b : wrap32 (wrap32 a - b) = wrap32 (a - b).
Proof. unfold wrap32. apply Zminus_mod_idemp_l. Qed.

Lemma wrap32_sub a b : wrap32 (wrap32 a - wrap32 b) = wrap32 (a - b).
Proof. unfold wrap32. symmetry. apply Zminus_mod. Qed.

(** Two cursors at distance less than [2^32] coincide as soon as their
    32-bit images do. *)
Lemma wrap32_inj_near a b :
  0 ≤ b - a < 2 ^ 32 → wrap32 a = wrap32 b → a = b.
Proof.
  unfold wrap32. intros Hd He.
  assert (H : (b - a) mod 2 ^ 32 = 0).
  { rewrite Zminus_mod, He, Z.sub_diag. done. }
  rewrite Z.mod_small in H by done. lia.
Qed.

Lemma mod_neq_near a b n : 0 < b - a < n → a mod n ≠ b mod n.
Proof.
  intros Hd He.
  assert (H : (b - a) mod n = 0).
  { rewrite Zminus_mod, He, Z.sub_diag. apply Z.mod_0_l. lia. }
  rewrite Z.mod_small in H by lia. lia.
Qed.

Section Pow2.
Variable CNT : Z.
Hypothesis HCNT : static_assert_CNT CNT = true.

Lemma CNT_range : 0 < CNT < 2 ^ 32.
Proof.
  unfold static_assert_CNT in HCNT.
  repeat (apply andb_prop in HCNT as [HCNT ?]).
  apply negb_true_iff in H0. lia.
Qed.

Lemma CNT_pow2 : ∃ k, 0 ≤ k < 32 ∧ CNT = 2 ^ k.
Proof.
  pose proof CNT_range as Hr.
  assert (Hl : Z.land CNT (CNT - 1) = 0).
  { unfold static_assert_CNT in HCNT.
    apply andb_prop in HCNT as [_ H].
    rewrite wrap32_small in H by lia. lia. }
  pose proof (Z.log2_spec CNT ltac:(lia)) as [Hlo Hhi].
  pose proof (Z.log2_nonneg CNT) as Hk.
  exists (Z.log2 CNT). split.
  - split; [done|]. apply Z.log2_lt_pow2; lia.
  - destruct (decide (CNT = 2 ^ Z.log2 CNT)) as [|Hne]; [done|].
    exfalso.
    assert (Hb1 : Z.testbit CNT (Z.log2 CNT) = true)
      by (apply Z.bit_log2; lia).
    assert (Hlog : Z.log2 (CNT - 1) = Z.log2 CNT).
    { apply Z.log2_unique; [done|]. lia. }
    assert (Hb2 : Z.testbit (CNT - 1) (Z.log2 CNT) = true).
    { rewrite <- Hlog. apply Z.bit_log2.
      assert (0 < 2 ^ Z.log2 CNT) by (apply Z.pow_pos_nonneg; lia). lia. }
    assert (Hb : Z.testbit (Z.land CNT (CNT - 1)) (Z.log2 CNT) = true).
    { rewrite Z.land_spec, Hb1, Hb2. done. }
    rewrite Hl, Z.bits_0 in Hb. done.
Qed.

Lemma wrap32_MASK : wrap32 (CNT - 1) = CNT - 1.
Proof. pose proof CNT_range. apply wrap32_small. lia. Qed.

Lemma land_MASK z : Z.land z (wrap32 (CNT - 1)) = z mod CNT.
Proof.
  rewrite wrap32_MASK. destruct CNT_pow2 as (k & Hk & ->).
  replace (2 ^ k - 1) with (Z.ones k) by (rewrite Z.ones_equiv; lia).
  apply Z.land_ones. lia.
Qed.

Lemma wrap32_mod_CNT z : wrap32 z mod CNT = z mod CNT.
Proof.
  unfold wrap32. destruct CNT_pow2 as (k & Hk & ->).
  apply Z.mod_mod_divide.
  exists (2 ^ (32 - k)). rewrite <- Z.pow_add_r by lia. f_equal. lia.
Qed.

Lemma mod_CNT_range z : 0 ≤ z mod CNT < CNT.
Proof. pose proof CNT_range. apply Z.mod_pos_bound. lia. Qed.

Lemma mod_CNT_lt_length {A} (l : list A) z :
  Z.of_nat (length l) = CNT → (Z.to_nat (z mod CNT) < length l)%nat.
Proof. pose proof (mod_CNT_range z). lia. Qed.
End Pow2.

(** A list read back slot by slot. *)
Lemma omap_seqZ_lookup {A} (f : Z → option A) (l : list A) m :
  (∀ k, (k < length l)%nat → f (m + Z.of_nat k) = l !! k) →
  omap f (seqZ m (Z.of_nat (length l))) = l.
Proof.
  revert m. induction l as [|x l IH]; intros m Hf; [done|].
  rewrite seqZ_cons by (simpl; lia).
  replace (Z.pred (Z.of_nat (length (x :: l))))
    with (Z.of_nat (length l)) by (simpl; lia).
  pose proof (Hf 0%nat ltac:(simpl; lia)) as H0.
  rewrite Z.add_0_r in H0. simpl. rewrite H0. simpl. f_equal.
  apply IH. intros k Hk.
  replace (Z.succ m + Z.of_nat k) with (m + Z.of_nat (S k)) by lia.
  apply (Hf (S k)). simpl. lia.
Qed.
(** ** [SPSCQueue]: the invariant holds in every reachable state *)

Section SPSC_system.
Import SPSCQueue.
Context {T : Type}.
Variable CNT : Z.
Hypothesis HCNT : static_assert_CNT CNT = true.

Lemma SPSC_inv_start (d : list T) :
  Z.of_nat (length d) = CNT → inv CNT (start d).
Proof.
  intros Hd. pose proof (CNT_range CNT HCNT).
  split; simpl; try done; try lia.
  - exists 0. unfold npushed, npopped. simpl.
    repeat split; try done; try lia.
  - unfold npushed, npopped. simpl. lia.
Qed.

Lemma SPSC_slot_of_cursor n :
  Z.land (wrap32 n) (MASK CNT) = n mod CNT.
Proof. unfold MASK. rewrite land_MASK by done. by apply wrap32_mod_CNT. Qed.

Lemma SPSC_inv_alloc (s : system T) r q :
  inv CNT s → alloc CNT (mq s) = (r, q) →
  inv CNT (System q r (fronted s) (pushed s) (popped s)).
Proof.
  intros [Hlen Hw Hr (c & Hc & Hcach & Hcap & Hres) Hle Hrs Hfr Hdat Hpop] Ha.
  pose proof (CNT_range CNT HCNT) as HC.
  destruct s as [[d w rc rd] res fr pu po].
  unfold alloc, npushed, npopped in *; simpl in *. subst w rc rd.
  rewrite !wrap32_sub, !SPSC_slot_of_cursor in Ha.
  rewrite (wrap32_small (_ - c)) in Ha by lia.
  destruct (Z.eqb_spec (Z.of_nat (length pu) - c) CNT) as [Hfull|Hfree].
  - rewrite wrap32_small in Ha by lia.
    destruct (Z.eqb_spec (Z.of_nat (length pu) - Z.of_nat (length po)) CNT);
      injection Ha as <- <-; split; unfold npushed, npopped; simpl; try done.
    + exists (Z.of_nat (length po)). repeat split; try lia. by intros ?%is_Some_None.
    + exists (Z.of_nat (length po)). repeat split; try lia.
    + by intros p [= <-].
  - injection Ha as <- <-; split; unfold npushed, npopped; simpl; try done.
    + exists c. repeat split; try lia.
    + by intros p [= <-].
Qed.

Lemma SPSC_inv_step (l : label T) (s s' : system T) :
  inv CNT s → step CNT l s = Some s' → inv CNT s'.
Proof.
  intros Hinv Hstep. destruct l as [|v| | |]; simpl in Hstep.
  - destruct (alloc CNT (mq s)) as [r q] eqn:Ha.
    injection Hstep as <-. by apply SPSC_inv_alloc.
  - destruct Hinv as
      [Hlen Hw Hr (c & Hc & Hcach & Hcap & Hres) Hle Hrs Hfr Hdat Hpop].
    destruct s as [[d w rc rd] res fr pu po].
    unfold npushed, npopped in *; simpl in *.
    destruct res as [p|]; [|done]. simpl in Hstep.
    destruct (d !! Z.to_nat p) as [x|] eqn:Hx; [|done].
    injection Hstep as <-.
    specialize (Hrs _ eq_refl). specialize (Hres ltac:(eauto)).
    split; unfold npushed, npopped; simpl; try done.
    + by rewrite length_alter.
    + exists c. done.
    + by intros ? [= <-].
    + intros i Hi. rewrite <- Hdat by done.
      apply list_lookup_alter_ne. subst p.
      pose proof (mod_neq_near i (Z.of_nat (length pu)) CNT ltac:(lia)).
      pose proof (mod_CNT_range CNT HCNT i).
      pose proof (mod_CNT_range CNT HCNT (Z.of_nat (length pu))).
      lia.
  - destruct Hinv as
      [Hlen Hw Hr (c & Hc & Hcach & Hcap & Hres) Hle Hrs Hfr Hdat Hpop].
    destruct s as [[d w rc rd] res fr pu po].
    unfold npushed, npopped in *; simpl in *.
    destruct res as [p|]; [|done]. simpl in Hstep.
    destruct (d !! Z.to_nat p) as [x|] eqn:Hx; [|done].
    injection Hstep as <-.
    specialize (Hrs _ eq_refl). specialize (Hres ltac:(eauto)).
    split; unfold npushed, npopped; simpl; rewrite ?length_app; simpl;
      try done.
    + rewrite Hw, wrap32_add_l. f_equal. lia.
    + exists c. repeat split; try lia. by intros ?%is_Some_None.
    + lia.
    + intros q Hq. destruct (Hfr q Hq). lia.
    + intros i Hi.
      destruct (decide (i = Z.of_nat (length pu))) as [->|Hne].
      * rewrite <- Hrs, Hx, lookup_app_r by lia.
        replace (_ - _)%nat with 0%nat by lia. done.
      * rewrite lookup_app_l by lia. apply Hdat. lia.
    + rewrite take_app_le by lia. done.
  - injection Hstep as <-.
    destruct Hinv as
      [Hlen Hw Hr (c & Hc & Hcach & Hcap & Hres) Hle Hrs Hfr Hdat Hpop].
    destruct s as [[d w rc rd] res fr pu po].
    unfold front, npushed, npopped in *; simpl in *.
    split; unfold npushed, npopped; simpl; try done.
    + exists c. done.
    + intros p. subst w rd.
      pose proof (CNT_range CNT HCNT).
      destruct (Z.eqb_spec (wrap32 (Z.of_nat (length po)))
                           (wrap32 (Z.of_nat (length pu)))) as [He|Hne];
        [done|].
      intros [= <-]. rewrite SPSC_slot_of_cursor. split; [done|].
      destruct (decide (Z.of_nat (length po) = Z.of_nat (length pu)));
        [congruence|lia].
  - destruct Hinv as
      [Hlen Hw Hr (c & Hc & Hcach & Hcap & Hres) Hle Hrs Hfr Hdat Hpop].
    destruct s as [[d w rc rd] res fr pu po].
    unfold npushed, npopped in *; simpl in *.
    destruct fr as [p|]; [|done]. simpl in Hstep.
    destruct (d !! Z.to_nat p) as [x|] eqn:Hx; [|done].
    injection Hstep as <-.
    destruct (Hfr _ eq_refl) as [-> Hlt].
    rewrite Hdat in Hx by lia.
    split; unfold npushed, npopped; simpl; rewrite ?length_app; simpl;
      try done.
    + rewrite Hr, wrap32_add_l. f_equal. lia.
    + exists c. repeat split; try lia. done.
    + lia.
    + intros i Hi. apply Hdat. lia.
    + rewrite Nat.add_1_r.
      rewrite Nat2Z.id in Hx.
      rewrite (take_S_r _ _ _ Hx). by rewrite <- Hpop.
Qed.
Lemma SPSC_inv_run (ls : list (label T)) (s s' : system T) :
  inv CNT s → run CNT ls s = Some s' → inv CNT s'.
Proof.
  revert s. induction ls as [|l ls IH]; intros s Hinv Hrun; simpl in Hrun.
  - by injection Hrun as <-.
  - destruct (step CNT l s) as [s1|] eqn:Hstep; [|done].
    eapply IH; [|exact Hrun]. by eapply SPSC_inv_step.
Qed.

Lemma SPSC_reachable_inv (d : list T) ls s :
  Z.of_nat (length d) = CNT → run CNT ls (start d) = Some s → inv CNT s.
Proof. intros Hd. apply SPSC_inv_run. by apply SPSC_inv_start. Qed.

(** No allowed call reads outside of the array: under the invariant a
    step fails only when the interface contract forbids the call. *)
Lemma SPSC_step_allowed (l : label T) (s : system T) :
  inv CNT s → allowed l s = true → is_Some (step CNT l s).
Proof.
  intros [Hlen Hw Hr _ Hle Hrs Hfr _ _] Hal.
  destruct l as [|v| | |]; simpl in *.
  - destruct (alloc CNT (mq s)); eauto.
  - apply bool_decide_eq_true in Hal as [p Hp]. rewrite Hp. simpl.
    rewrite (Hrs p Hp).
    destruct (lookup_lt_is_Some_2 (data (mq s))
      (Z.to_nat (npushed s mod CNT))) as [x ->]; [|by eauto].
    by apply mod_CNT_lt_length.
  - apply bool_decide_eq_true in Hal as [p Hp]. rewrite Hp. simpl.
    rewrite (Hrs p Hp).
    destruct (lookup_lt_is_Some_2 (data (mq s))
      (Z.to_nat (npushed s mod CNT))) as [x ->]; [|by eauto].
    by apply mod_CNT_lt_length.
  - eauto.
  - apply bool_decide_eq_true in Hal as [p Hp]. rewrite Hp. simpl.
    destruct (Hfr p Hp) as [-> _].
    destruct (lookup_lt_is_Some_2 (data (mq s))
      (Z.to_nat (npopped s mod CNT))) as [x ->]; [|by eauto].
    by apply mod_CNT_lt_length.
Qed.
End SPSC_system.

(** ** [SPSCQueueOPT]: the invariant holds in every reachable state *)

Section OPT_system.
Import SPSCQueueOPT.
Context {T : Type}.
Variable CNT : Z.
Hypothesis HCNT : static_assert_CNT CNT = true.

Lemma OPT_slot_succ n :
  Z.land (wrap32 (n mod CNT + 1)) (MASK CNT) = (n + 1) mod CNT.
Proof.
  unfold MASK. rewrite land_MASK, wrap32_mod_CNT by done.
  apply Zplus_mod_idemp_l.
Qed.

Lemma OPT_free_count r w :
  0 ≤ w - r ≤ CNT - 1 →
  Z.land (wrap32 (wrap32 (wrap32 (r mod CNT - w mod CNT) + CNT) - 1))
         (MASK CNT) = CNT - 1 - (w - r).
Proof.
  intros Hwr. pose proof (CNT_range CNT HCNT).
  rewrite wrap32_add_l, wrap32_sub_l.
  unfold MASK. rewrite land_MASK, wrap32_mod_CNT by done.
  rewrite (Z.mod_eq r CNT), (Z.mod_eq w CNT) by lia.
  replace (_ - 1) with (CNT - 1 - (w - r) + (w / CNT - r / CNT) * CNT) by ring.
  rewrite Z_mod_plus_full. apply Z.mod_small. lia.
Qed.

Lemma OPT_inv_start (d : list T) :
  Z.of_nat (length d) = CNT → inv CNT (start CNT d).
Proof.
  intros Hd. pose proof (CNT_range CNT HCNT).
  split; unfold ncleared, npushed, npopped; simpl;
    rewrite ?length_fmap, ?wrap32_MASK; try done; try lia.
  intros i Hi. rewrite list_lookup_fmap.
  destruct (lookup_lt_is_Some_2 d (Z.to_nat (i mod CNT))) as [x ->];
    [|done].
  by apply mod_CNT_lt_length.
Qed.

Lemma OPT_slot_neq a b :
  0 < b - a < CNT → Z.to_nat (b mod CNT) ≠ Z.to_nat (a mod CNT).
Proof.
  intros Hd. pose proof (mod_neq_near a b CNT Hd).
  pose proof (mod_CNT_range CNT HCNT a).
  pose proof (mod_CNT_range CNT HCNT b). lia.
Qed.

Lemma OPT_avail_set_data (f : T → T) i j (l : list (Block T)) :
  avail <$> alter (set_data f) i l !! j = avail <$> l !! j.
Proof.
  destruct (decide (i = j)) as [->|Hne].
  - rewrite list_lookup_alter_eq. by destruct (l !! j).
  - by rewrite list_lookup_alter_ne.
Qed.

Lemma OPT_data_set_avail b i j (l : list (Block T)) :
  data <$> alter (set_avail b) i l !! j = data <$> l !! j.
Proof.
  destruct (decide (i = j)) as [->|Hne].
  - rewrite list_lookup_alter_eq. by destruct (l !! j).
  - by rewrite list_lookup_alter_ne.
Qed.

Ltac open_inv H s :=
  destruct H as [Hlen Hw Hr Hle Hfree Hrs Hfr Hpg Hat Haf Hdat Hpop];
  destruct s as [[b w fc rd] res fr pg pu po];
  unfold ncleared, npushed, npopped in *; simpl in *.

Ltac split_inv :=
  split; unfold ncleared, npushed, npopped; simpl;
  rewrite ?length_app, ?length_alter; simpl; try done.

Lemma OPT_inv_alloc (s : system T) r q :
  inv CNT s → alloc CNT (mq s) = (r, q) →
  inv CNT (System q r (fronted s) (popping s) (pushed s) (popped s)).
Proof.
  intros Hinv Ha. pose proof (CNT_range CNT HCNT) as HC.
  open_inv Hinv s. unfold alloc in Ha; simpl in Ha. subst w rd.
  rewrite OPT_free_count in Ha by (destruct pg; lia).
  destruct (Z.eqb_spec fc 0) as [->|Hfc].
  - destruct (Z.eqb_spec (CNT - 1 - (Z.of_nat (length pu) -
        Z.of_nat (length po))) 0) as [Hz|Hnz];
      injection Ha as <- <-; split_inv; try lia.
    intros p [= <-]. lia.
  - injection Ha as <- <-. split_inv.
    intros p [= <-]. lia.
Qed.

Lemma OPT_inv_write (s s' : system T) v :
  inv CNT s → step CNT (LWrite v) s = Some s' → inv CNT s'.
Proof.
  intros Hinv Hstep. open_inv Hinv s.
  destruct res as [p|]; [|done]. simpl in Hstep.
  destruct (b !! Z.to_nat p) as [k|] eqn:Hk; [|done].
  injection Hstep as <-. destruct (Hrs _ eq_refl) as [-> Hfc].
  split_inv.
  - intros i Hi. rewrite OPT_avail_set_data. by apply Hat.
  - intros i Hi. rewrite OPT_avail_set_data. by apply Haf.
  - intros i Hi. rewrite list_lookup_alter_ne; [by apply Hdat|].
    apply OPT_slot_neq. lia.
Qed.

Lemma OPT_inv_push (s s' : system T) :
  inv CNT s → step CNT LPush s = Some s' → inv CNT s'.
Proof.
  intros Hinv Hstep. pose proof (CNT_range CNT HCNT) as HC.
  open_inv Hinv s.
  destruct res as [p|]; [|done]. simpl in Hstep.
  destruct (b !! Z.to_nat p) as [k|] eqn:Hk; [|done].
  injection Hstep as <-. destruct (Hrs _ eq_refl) as [-> Hfc].
  assert (Hgap : Z.of_nat (length pu) - Z.of_nat (length po) < CNT - 1)
    by lia.
  split_inv.
  - rewrite Hw, OPT_slot_succ. f_equal. lia.
  - destruct pg; lia.
  - destruct pg; rewrite wrap32_small by lia; lia.
  - intros p Hp. destruct (Hfr p Hp) as [? ?]. split; [done|lia].
  - intros i Hi. subst w.
    destruct (decide (i = Z.of_nat (length pu))) as [->|Hne].
    + by rewrite list_lookup_alter_eq, Hk.
    + rewrite list_lookup_alter_ne; [apply Hat; lia|].
      apply OPT_slot_neq. destruct pg; lia.
  - intros i Hi. subst w.
    rewrite list_lookup_alter_ne; [apply Haf; lia|].
    apply not_eq_sym, OPT_slot_neq. destruct pg; lia.
  - intros i Hi. subst w. rewrite OPT_data_set_avail.
    destruct (decide (i = Z.of_nat (length pu))) as [->|Hne].
    + rewrite Hk, lookup_app_r by lia.
      replace (_ - _)%nat with 0%nat by lia. done.
    + rewrite lookup_app_l by lia. apply Hdat. lia.
  - rewrite take_app_le by (destruct pg; lia). done.
Qed.

Lemma OPT_inv_front (s s' : system T) :
  inv CNT s → step CNT LFront s = Some s' → inv CNT s'.
Proof.
  intros Hinv Hstep. pose proof (CNT_range CNT HCNT) as HC.
  open_inv Hinv s.
  destruct pg; [done|]. injection Hstep as <-.
  rewrite Z.add_0_r in *. split_inv.
  - by rewrite Z.add_0_r.
  - intros p. subst rd. unfold front; simpl.
    destruct (decide (Z.of_nat (length po) < Z.of_nat (length pu)))
      as [Hlt|Hge].
    + specialize (Hat (Z.of_nat (length po)) ltac:(lia)).
      destruct (b !! _) as [k|]; [|done]. simpl in Hat.
      injection Hat as ->. by intros [= <-].
    + specialize (Haf (Z.of_nat (length po)) ltac:(lia)).
      destruct (b !! _) as [k|]; [|done]. simpl in Haf.
      injection Haf as ->. done.
  - intros i. rewrite Z.add_0_r. apply Hat.
  - intros i. rewrite Z.add_0_r. apply Haf.
Qed.

Lemma OPT_inv_pop_avail (s s' : system T) :
  inv CNT s → step CNT LPopAvail s = Some s' → inv CNT s'.
Proof.
  intros Hinv Hstep. pose proof (CNT_range CNT HCNT) as HC.
  open_inv Hinv s.
  destruct pg; [done|].
  destruct fr as [p|]; [|done]. simpl in Hstep.
  destruct (b !! Z.to_nat p) as [k|] eqn:Hk; [|done].
  injection Hstep as <-. destruct (Hfr _ eq_refl) as (-> & Hlt).
  rewrite Z.add_0_r in *. split_inv.
  - lia.
  - intros i Hi. subst rd.
    rewrite list_lookup_alter_ne; [apply Hat; lia|].
    apply not_eq_sym, OPT_slot_neq. lia.
  - intros i Hi. subst rd.
    destruct (decide (i = Z.of_nat (length po) + CNT)) as [->|Hne].
    + rewrite <- (Z.mul_1_l CNT) at 1. rewrite Z_mod_plus_full.
      by rewrite list_lookup_alter_eq, Hk.
    + rewrite list_lookup_alter_ne; [apply Haf; lia|].
      apply not_eq_sym, OPT_slot_neq. lia.
  - intros i Hi. rewrite OPT_data_set_avail. by apply Hdat.
Qed.

Lemma OPT_inv_pop_read_idx (s s' : system T) :
  inv CNT s → step CNT LPopReadIdx s = Some s' → inv CNT s'.
Proof.
  intros Hinv Hstep. open_inv Hinv s.
  destruct pg; [|done].
  destruct fr as [p|]; [|done]. simpl in Hstep.
  destruct (b !! Z.to_nat p) as [k|] eqn:Hk; [|done].
  injection Hstep as <-. destruct (Hfr _ eq_refl) as (-> & Hlt).
  pose proof (Hdat (Z.of_nat (length po)) ltac:(lia)) as Hd.
  rewrite Hk in Hd. simpl in Hd.
  split_inv.
  - rewrite Hr, OPT_slot_succ. f_equal. lia.
  - lia.
  - lia.
  - intros i Hi. apply Hat. lia.
  - intros i Hi. apply Haf. lia.
  - intros i Hi. apply Hdat. lia.
  - rewrite Nat.add_1_r. rewrite Nat2Z.id in Hd. symmetry in Hd.
    rewrite (take_S_r _ _ _ Hd). by rewrite <- Hpop.
Qed.

Lemma OPT_inv_step (l : label T) (s s' : system T) :
  inv CNT s → step CNT l s = Some s' → inv CNT s'.
Proof.
  intros Hinv Hstep. destruct l as [|v| | | |].
  - simpl in Hstep. destruct (alloc CNT (mq s)) as [r q] eqn:Ha.
    injection Hstep as <-. by apply OPT_inv_alloc.
  - by eapply OPT_inv_write.
  - by eapply OPT_inv_push.
  - by eapply OPT_inv_front.
  - by eapply OPT_inv_pop_avail.
  - by eapply OPT_inv_pop_read_idx.
Qed.

Lemma OPT_inv_run (ls : list (label T)) (s s' : system T) :
  inv CNT s → run CNT ls s = Some s' → inv CNT s'.
Proof.
  revert s. induction ls as [|l ls IH]; intros s Hinv Hrun; simpl in Hrun.
  - by injection Hrun as <-.
  - destruct (step CNT l s) as [s1|] eqn:Hstep; [|done].
    eapply IH; [|exact Hrun]. by eapply OPT_inv_step.
Qed.

Lemma OPT_reachable_inv (d : list T) ls s :
  Z.of_nat (length d) = CNT → run CNT ls (start CNT d) = Some s →
  inv CNT s.
Proof. intros Hd. apply OPT_inv_run. by apply OPT_inv_start. Qed.

Lemma OPT_slot_in_bounds (l : list (Block T)) n :
  Z.of_nat (length l) = CNT → is_Some (l !! Z.to_nat (n mod CNT)).
Proof. intros Hl. apply lookup_lt_is_Some_2. by apply mod_CNT_lt_length. Qed.

Lemma OPT_step_allowed (l : label T) (s : system T) :
  inv CNT s → allowed l s = true → is_Some (step CNT l s).
Proof.
  intros [Hlen Hw Hr _ _ Hrs Hfr Hpg _ _ _ _] Hal.
  destruct l as [|v| | | |]; simpl in *.
  - destruct (alloc CNT (mq s)); eauto.
  - apply bool_decide_eq_true in Hal as [p Hp]. rewrite Hp. simpl.
    destruct (Hrs p Hp) as [-> _].
    destruct (OPT_slot_in_bounds _ (npushed s) Hlen) as [x ->]. by eauto.
  - apply bool_decide_eq_true in Hal as [p Hp]. rewrite Hp. simpl.
    destruct (Hrs p Hp) as [-> _].
    destruct (OPT_slot_in_bounds _ (npushed s) Hlen) as [x ->]. by eauto.
  - destruct (popping s); [done|eauto].
  - apply andb_prop in Hal as [Hal Hnp].
    apply negb_true_iff in Hnp. rewrite Hnp.
    apply bool_decide_eq_true in Hal as [p Hp]. rewrite Hp. simpl.
    destruct (Hfr p Hp) as (-> & _).
    destruct (OPT_slot_in_bounds _ (npopped s) Hlen) as [x ->]. by eauto.
  - rewrite Hal. destruct (Hpg Hal) as [p Hp]. rewrite Hp. simpl.
    destruct (Hfr p Hp) as (-> & _).
    destruct (OPT_slot_in_bounds _ (npopped s) Hlen) as [x ->]. by eauto.
Qed.
End OPT_system.

(** ** Both queues refine the abstract FIFO list *)

Section SPSC_refinement.
Import SPSCQueue.
Context {T : Type}.
Variable CNT : Z.
Hypothesis HCNT : static_assert_CNT CNT = true.

Lemma SPSC_contents (s : system T) :
  inv CNT s → contents CNT (mq s) = drop (length (popped s)) (pushed s).
Proof.
  intros [Hlen Hw Hr (c & Hc & _ & Hcap & _) Hle _ _ Hdat _].
  pose proof (CNT_range CNT HCNT) as HC.
  unfold contents, npushed, npopped in *.
  rewrite Hw, Hr, wrap32_sub, wrap32_small by lia.
  replace (Z.of_nat (length (pushed s)) - Z.of_nat (length (popped s)))
    with (Z.of_nat (length (drop (length (popped s)) (pushed s))))
    by (rewrite length_drop; lia).
  apply omap_seqZ_lookup. intros k Hk. rewrite length_drop in Hk.
  unfold slot_at. rewrite Hr, wrap32_add_l, SPSC_slot_of_cursor by done.
  rewrite Hdat by lia. rewrite lookup_drop. f_equal. lia.
Qed.

Lemma SPSC_history (s : system T) :
  inv CNT s → pushed s = popped s ++ contents CNT (mq s).
Proof.
  intros Hinv. rewrite SPSC_contents by done.
  rewrite (inv_popped _ _ _ Hinv) at 1. by rewrite take_drop.
Qed.

Lemma SPSC_refines (l : label T) (s s' : system T) :
  inv CNT s → step CNT l s = Some s' → refines_step CNT l s s'.
Proof.
  intros Hinv Hstep.
  pose proof (SPSC_inv_step CNT HCNT _ _ _ Hinv Hstep) as Hinv'.
  pose proof (SPSC_contents _ Hinv) as Hc.
  pose proof (SPSC_contents _ Hinv') as Hc'.
  destruct Hinv as [_ _ _ _ Hle _ Hfr Hdat _].
  unfold npushed, npopped in *.
  destruct l as [|v| | |]; simpl in *.
  - destruct (alloc CNT (mq s)) as [r q]. injection Hstep as <-.
    simpl in *. congruence.
  - destruct (reserved s) as [p|]; [|done]. simpl in Hstep.
    destruct (data (mq s) !! Z.to_nat p) as [x|]; [|done].
    injection Hstep as <-. simpl in *. congruence.
  - destruct (reserved s) as [p|]; [|done]. simpl in Hstep.
    destruct (data (mq s) !! Z.to_nat p) as [x|] eqn:Hx; [|done].
    injection Hstep as <-. simpl in *. exists p, x.
    repeat split; try done.
    rewrite Hc', Hc. unfold FIFO.push. apply drop_app_le. lia.
  - injection Hstep as <-. simpl in *. congruence.
  - destruct (fronted s) as [p|]; [|done]. simpl in Hstep.
    destruct (data (mq s) !! Z.to_nat p) as [x|] eqn:Hx; [|done].
    injection Hstep as <-. simpl in *. exists p, x.
    repeat split; try done.
    destruct (Hfr p eq_refl) as [-> Hlt].
    rewrite Hdat, Nat2Z.id in Hx by lia.
    rewrite Hc', Hc, length_app, Nat.add_1_r. simpl.
    by rewrite (drop_S _ _ _ Hx).
Qed.

(** The slot the consumer holds after a successful [front] is the head
    of the list. *)
Lemma SPSC_front_head (s : system T) p :
  inv CNT s → fronted s = Some p →
  ∃ v, data (mq s) !! Z.to_nat p = Some v ∧
       head (contents CNT (mq s)) = Some v.
Proof.
  intros Hinv Hp. rewrite SPSC_contents by done.
  destruct Hinv as [_ _ _ _ _ _ Hfr Hdat _].
  unfold npushed, npopped in *. destruct (Hfr p Hp) as [-> Hlt].
  rewrite Hdat, Nat2Z.id by lia.
  destruct (lookup_lt_is_Some_2 (pushed s) (length (popped s)))
    as [v Hv]; [lia|].
  exists v. split; [done|]. by rewrite (drop_S _ _ _ Hv).
Qed.
End SPSC_refinement.

Section OPT_refinement.
Import SPSCQueueOPT.
Context {T : Type}.
Variable CNT : Z.
Hypothesis HCNT : static_assert_CNT CNT = true.

Lemma OPT_contents (s : system T) :
  inv CNT s → contents CNT (mq s) = drop (length (popped s)) (pushed s).
Proof.
  intros [Hlen Hw Hr Hle Hfree _ _ _ _ _ Hdat _].
  pose proof (CNT_range CNT HCNT) as HC.
  unfold contents, ncleared, npushed, npopped in *.
  assert (Hle' : Z.of_nat (length (popped s)) ≤ Z.of_nat (length (pushed s)))
    by (destruct (popping s); lia).
  assert (Hn : Z.land (wrap32 (write_idx (mq s) - read_idx (mq s)))
                      (MASK CNT)
               = Z.of_nat (length (drop (length (popped s)) (pushed s)))).
  { unfold MASK. rewrite land_MASK, wrap32_mod_CNT, Hw, Hr by done.
    rewrite length_drop, <- Zminus_mod, Z.mod_small; lia. }
  rewrite Hn. apply omap_seqZ_lookup. intros k Hk.
  rewrite length_drop in Hk. unfold slot_at, MASK.
  rewrite land_MASK, wrap32_mod_CNT, Hr, Zplus_mod_idemp_l by done.
  rewrite Hdat by lia. rewrite lookup_drop. f_equal. lia.
Qed.

Lemma OPT_history (s : system T) :
  inv CNT s → pushed s = popped s ++ contents CNT (mq s).
Proof.
  intros Hinv. rewrite OPT_contents by done.
  rewrite (inv_popped _ _ _ Hinv) at 1. by rewrite take_drop.
Qed.

Lemma OPT_refines (l : label T) (s s' : system T) :
  inv CNT s → step CNT l s = Some s' → refines_step CNT l s s'.
Proof.
  intros Hinv Hstep.
  pose proof (OPT_inv_step CNT HCNT _ _ _ Hinv Hstep) as Hinv'.
  pose proof (OPT_contents _ Hinv) as Hc.
  pose proof (OPT_contents _ Hinv') as Hc'.
  destruct Hinv as [_ _ _ Hle _ _ Hfr _ _ _ Hdat _].
  unfold ncleared, npushed, npopped in *.
  destruct l as [|v| | | |]; simpl in *.
  - destruct (alloc CNT (mq s)) as [r q]. injection Hstep as <-.
    simpl in *. congruence.
  - destruct (reserved s) as [p|]; [|done]. simpl in Hstep.
    destruct (blk (mq s) !! Z.to_nat p) as [x|]; [|done].
    injection Hstep as <-. simpl in *. congruence.
  - destruct (reserved s) as [p|]; [|done]. simpl in Hstep.
    destruct (blk (mq s) !! Z.to_nat p) as [x|] eqn:Hx; [|done].
    injection Hstep as <-. simpl in *. exists p, x.
    repeat split; try done.
    rewrite Hc', Hc. unfold FIFO.push. apply drop_app_le.
    destruct (popping s); lia.
  - destruct (popping s); [done|].
    injection Hstep as <-. simpl in *. congruence.
  - destruct (popping s); [done|].
    destruct (fronted s) as [p|]; [|done]. simpl in Hstep.
    destruct (blk (mq s) !! Z.to_nat p) as [x|]; [|done].
    injection Hstep as <-. simpl in *. congruence.
  - destruct (popping s); [|done].
    destruct (fronted s) as [p|]; [|done]. simpl in Hstep.
    destruct (blk (mq s) !! Z.to_nat p) as [x|] eqn:Hx; [|done].
    injection Hstep as <-. simpl in *. exists p, x.
    repeat split; try done.
    destruct (Hfr p eq_refl) as [-> Hlt].
    pose proof (Hdat (Z.of_nat (length (popped s))) ltac:(lia)) as Hd.
    rewrite Hx, Nat2Z.id in Hd. simpl in Hd. symmetry in Hd.
    rewrite Hc', Hc, length_app, Nat.add_1_r. simpl.
    by rewrite (drop_S _ _ _ Hd).
Qed.

Lemma OPT_front_head (s : system T) p :
  inv CNT s → fronted s = Some p →
  ∃ v, data <$> blk (mq s) !! Z.to_nat p = Some v ∧
       head (contents CNT (mq s)) = Some v.
Proof.
  intros Hinv Hp. rewrite OPT_contents by done.
  destruct Hinv as [_ _ _ _ _ _ Hfr _ _ _ Hdat _].
  unfold npushed, npopped in *. destruct (Hfr p Hp) as [-> Hlt].
  rewrite Hdat, Nat2Z.id by lia.
  destruct (lookup_lt_is_Some_2 (pushed s) (length (popped s)))
    as [v Hv]; [lia|].
  exists v. split; [done|]. by rewrite (drop_S _ _ _ Hv).
Qed.
End OPT_refinement.

(** ** No false fullness, no false emptiness *)

Section SPSC_full_empty.
Import SPSCQueue.
Context {T : Type}.
Variable CNT : Z.
Hypothesis HCNT : static_assert_CNT CNT = true.

Lemma SPSC_front_empty (s : system T) :
  inv CNT s → front CNT (mq s) = None ↔ npushed s = npopped s.
Proof.
  intros [_ Hw Hr (c & Hc & _ & Hcap & _) Hle _ _ _ _].
  pose proof (CNT_range CNT HCNT) as HC.
  unfold front. rewrite Hw, Hr.
  destruct (Z.eqb_spec (wrap32 (npopped s)) (wrap32 (npushed s)))
    as [He|Hne].
  - split; [intros _|done]. symmetry. apply wrap32_inj_near; [lia|done].
  - split; [done|]. intros He. by rewrite He in Hne.
Qed.

Lemma SPSC_alloc_full (s : system T) :
  inv CNT s →
  fst (alloc CNT (mq s)) = None ↔ npushed s - npopped s = CNT.
Proof.
  intros [_ Hw Hr (c & Hc & Hcach & Hcap & _) Hle _ _ _ _].
  pose proof (CNT_range CNT HCNT) as HC.
  unfold alloc. cbn [write_idx read_idx_cach read_idx data].
  rewrite Hw, Hr, Hcach, !wrap32_sub.
  rewrite (wrap32_small (_ - c)), (wrap32_small (_ - npopped s)) by lia.
  destruct (Z.eqb_spec (npushed s - c) CNT);
    destruct (Z.eqb_spec (npushed s - npopped s) CNT); simpl;
    split; try done; lia.
Qed.
End SPSC_full_empty.

Section OPT_full_empty.
Import SPSCQueueOPT.
Context {T : Type}.
Variable CNT : Z.
Hypothesis HCNT : static_assert_CNT CNT = true.

Lemma OPT_front_empty (s : system T) :
  inv CNT s → popping s = false →
  front (mq s) = None ↔ npushed s = npopped s.
Proof.
  intros [_ _ Hr Hle _ _ _ _ Hat Haf _ _] Hpg.
  pose proof (CNT_range CNT HCNT) as HC.
  unfold ncleared in *. rewrite Hpg, Z.add_0_r in *.
  unfold front. rewrite Hr.
  destruct (decide (npopped s < npushed s)) as [Hlt|Hge].
  - specialize (Hat (npopped s) ltac:(lia)).
    destruct (blk (mq s) !! _) as [k|]; [|done]. simpl in Hat.
    injection Hat as ->. split; [done|lia].
  - specialize (Haf (npopped s) ltac:(lia)).
    destruct (blk (mq s) !! _) as [k|]; [|done]. simpl in Haf.
    injection Haf as ->. split; [lia|done].
Qed.

Lemma OPT_alloc_full (s : system T) :
  inv CNT s →
  fst (alloc CNT (mq s)) = None ↔ npushed s - npopped s = CNT - 1.
Proof.
  intros [_ Hw Hr Hle Hfree _ _ _ _ _ _ _].
  pose proof (CNT_range CNT HCNT) as HC.
  assert (Hle' : npopped s ≤ npushed s)
    by (unfold ncleared in Hle; destruct (popping s); lia).
  unfold alloc. cbn [write_idx free_write_cnt read_idx blk].
  rewrite Hw, Hr, (OPT_free_count CNT HCNT) by lia.
  destruct (Z.eqb_spec (free_write_cnt (mq s)) 0);
    [destruct (Z.eqb_spec (CNT - 1 - (npushed s - npopped s)) 0)|];
    simpl; split; try done; lia.
Qed.
End OPT_full_empty.

(** ** The wrappers [tryPush], [tryPop] and [blockPush] *)

Section SPSC_wrappers.
Import SPSCQueue.
Context {T : Type}.
Variable CNT : Z.

Lemma SPSC_tryPush_eq (writer : T → T) (q : queue T) (l : list event) :
  tryPush CNT writer q l =
    match alloc CNT q with
    | (None, q1) => (false, q1, l ++ [EvAlloc None])
    | (Some p, q1) =>
        (true, push (apply_slot writer p q1),
         l ++ [EvAlloc (Some p); EvWriter p; EvPush])
    end.
Proof.
  unfold tryPush, alloc_, writer_, push_, mbind, Prog_bind, call, emit,
    mret, Prog_ret.
  destruct (alloc CNT q) as [[p|] q1]; [|done].
  by rewrite <- !app_assoc.
Qed.

Lemma SPSC_tryPop_eq (reader : T → T) (q : queue T) (l : list event) :
  tryPop CNT reader q l =
    match front CNT q with
    | None => (false, q, l ++ [EvFront None])
    | Some v =>
        (true, pop (apply_slot reader v q),
         l ++ [EvFront (Some v); EvReader v; EvPop])
    end.
Proof.
  unfold tryPop, front_, reader_, pop_, mbind, Prog_bind, call, emit,
    mret, Prog_ret.
  destruct (front CNT q) as [v|]; [|done].
  by rewrite <- !app_assoc.
Qed.

Lemma SPSC_blockPush_unfold fuel (writer : T → T) q (l : list event) :
  blockPush CNT (S fuel) writer q l =
    match tryPush CNT writer q l with
    | (true, q', l') => (Some tt, q', l')
    | (false, q', l') => blockPush CNT fuel writer q' l'
    end.
Proof.
  cbn [blockPush]. unfold mbind at 1. unfold Prog_bind.
  by destruct (tryPush CNT writer q l) as [[[|] q'] l'].
Qed.

(** A failed [alloc] fails again as long as the consumer does not
    run. *)
Lemma SPSC_alloc_None_again (q q1 : queue T) :
  alloc CNT q = (None, q1) → alloc CNT q1 = (None, q1).
Proof.
  unfold alloc. destruct q as [d w rc rd]; simpl.
  destruct (wrap32 (w - rc) =? CNT); [|done].
  destruct (wrap32 (w - rd) =? CNT) eqn:Hfull; [|done].
  intros [= <-]. simpl. by rewrite Hfull.
Qed.

Lemma SPSC_blockPush_spin fuel (writer : T → T) q q1 (l : list event) :
  alloc CNT q = (None, q1) →
  blockPush CNT fuel writer q l =
    (None, match fuel with O => q | S _ => q1 end,
     l ++ replicate fuel (EvAlloc None)).
Proof.
  revert q l. induction fuel as [|fuel IH]; intros q l Ha.
  - simpl. by rewrite app_nil_r.
  - rewrite SPSC_blockPush_unfold, SPSC_tryPush_eq, Ha.
    rewrite (IH q1) by (by eapply SPSC_alloc_None_again).
    simpl. rewrite <- app_assoc. by destruct fuel.
Qed.
End SPSC_wrappers.

Section OPT_wrappers.
Import SPSCQueueOPT.
Context {T : Type}.
Variable CNT : Z.

Lemma OPT_tryPush_eq (writer : T → T) (q : queue T) (l : list event) :
  tryPush CNT writer q l =
    match alloc CNT q with
    | (None, q1) => (false, q1, l ++ [EvAlloc None])
    | (Some p, q1) =>
        (true, push CNT (apply_slot writer p q1),
         l ++ [EvAlloc (Some p); EvWriter p; EvPush])
    end.
Proof.
  unfold tryPush, alloc_, writer_, push_, mbind, Prog_bind, call, emit,
    mret, Prog_ret.
  destruct (alloc CNT q) as [[p|] q1]; [|done].
  by rewrite <- !app_assoc.
Qed.

Lemma OPT_tryPop_eq (reader : T → T) (q : queue T) (l : list event) :
  tryPop CNT reader q l =
    match front q with
    | None => (false, q, l ++ [EvFront None])
    | Some v =>
        (true, pop CNT (apply_slot reader v q),
         l ++ [EvFront (Some v); EvReader v; EvPop])
    end.
Proof.
  unfold tryPop, front_, reader_, pop_, mbind, Prog_bind, call, emit,
    mret, Prog_ret.
  destruct (front q) as [v|]; [|done].
  by rewrite <- !app_assoc.
Qed.

Lemma OPT_blockPush_unfold fuel (writer : T → T) q (l : list event) :
  blockPush CNT (S fuel) writer q l =
    match tryPush CNT writer q l with
    | (true, q', l') => (Some tt, q', l')
    | (false, q', l') => blockPush CNT fuel writer q' l'
    end.
Proof.
  cbn [blockPush]. unfold mbind at 1. unfold Prog_bind.
  by destruct (tryPush CNT writer q l) as [[[|] q'] l'].
Qed.

Lemma OPT_alloc_None (q q1 : queue T) :
  alloc CNT q = (None, q1) → q1 = q ∧ free_write_cnt q = 0.
Proof.
  unfold alloc. destruct q as [b w fc rd]; simpl.
  destruct (Z.eqb_spec fc 0) as [->|]; [|done].
  destruct (Z.eqb_spec (Z.land
    (wrap32 (wrap32 (wrap32 (rd - w) + CNT) - 1)) (MASK CNT)) 0)
    as [->|]; [|done].
  by intros [= <-].
Qed.

Lemma OPT_blockPush_spin fuel (writer : T → T) q q1 (l : list event) :
  alloc CNT q = (None, q1) →
  blockPush CNT fuel writer q l =
    (None, q, l ++ replicate fuel (EvAlloc None)).
Proof.
  intros Ha. destruct (OPT_alloc_None _ _ Ha) as [-> _].
  revert l. induction fuel as [|fuel IH]; intros l.
  - simpl. by rewrite app_nil_r.
  - rewrite OPT_blockPush_unfold, OPT_tryPush_eq, Ha, IH.
    simpl. by rewrite <- app_assoc.
Qed.
End OPT_wrappers.

(** ** [tryPush] and [tryPop] as steps of the interleaved system *)

Section SPSC_wrapper_steps.
Import SPSCQueue.
Context {T : Type}.
Variable CNT : Z.
Hypothesis HCNT : static_assert_CNT CNT = true.

(** A call of [tryPush] is the producer's steps [alloc], write, [push]
    (or a lone failed [alloc]). *)
Lemma SPSC_tryPush_steps (writer : T → T) (s : system T) l :
  inv CNT s →
  let '(b, q', _) := tryPush CNT writer (mq s) l in
  ∃ s', mq s' = q' ∧
        if b : bool
        then ∃ v, run CNT [LAlloc; LWrite v; LPush] s = Some s' ∧
                  pushed s' = pushed s ++ [v]
        else run CNT [LAlloc] s = Some s' ∧ pushed s' = pushed s.
Proof.
  intros Hinv. rewrite SPSC_tryPush_eq.
  destruct (alloc CNT (mq s)) as [[p|] q1] eqn:Ha.
  - pose proof (SPSC_inv_alloc CNT HCNT s _ _ Hinv Ha)
      as [Hlen _ _ _ _ Hrs _ _ _].
    unfold npushed in *; simpl in Hlen, Hrs.
    pose proof (Hrs p eq_refl) as ->.
    destruct (lookup_lt_is_Some_2 (data q1)
      (Z.to_nat (Z.of_nat (length (pushed s)) mod CNT))) as [x Hx];
      [by apply mod_CNT_lt_length|].
    assert (He : apply_slot writer (Z.of_nat (length (pushed s)) mod CNT) q1
                 = apply_slot (λ _, writer x) (Z.of_nat (length (pushed s)) mod CNT) q1).
    { unfold apply_slot. f_equal.
      apply list_alter_ext; [|done]. intros y Hy. congruence. }
    rewrite He.
    exists (System (push (apply_slot (λ _, writer x)
              (Z.of_nat (length (pushed s)) mod CNT) q1))
            None (fronted s) (pushed s ++ [writer x]) (popped s)).
    split; [reflexivity|]. exists (writer x). split; [|reflexivity].
    simpl. rewrite Ha. simpl. rewrite Hx. simpl.
    rewrite list_lookup_alter_eq, Hx. reflexivity.
  - exists (System q1 None (fronted s) (pushed s) (popped s)).
    split; [reflexivity|]. split; [|reflexivity]. simpl. by rewrite Ha.
Qed.

(** A call of [tryPop] whose reader leaves the slot as it is, is the
    consumer's steps [front], [pop] (or a lone failed [front]). *)
Lemma SPSC_tryPop_steps (s : system T) l :
  inv CNT s →
  let '(b, q', _) := tryPop CNT id (mq s) l in
  ∃ s', mq s' = q' ∧
        if b : bool
        then run CNT [LFront; LPop] s = Some s' ∧
             ∃ p x, front CNT (mq s) = Some p ∧
                    data (mq s) !! Z.to_nat p = Some x ∧
                    popped s' = popped s ++ [x]
        else run CNT [LFront] s = Some s' ∧ popped s' = popped s.
Proof.
  intros Hinv. rewrite SPSC_tryPop_eq.
  pose proof (SPSC_inv_step CNT HCNT LFront s _ Hinv eq_refl)
    as [Hlen _ _ _ _ _ Hfr _ _].
  unfold npopped in *; simpl in Hlen, Hfr.
  destruct (front CNT (mq s)) as [p|] eqn:Hf.
  - destruct (Hfr p eq_refl) as [-> _].
    destruct (lookup_lt_is_Some_2 (data (mq s))
      (Z.to_nat (Z.of_nat (length (popped s)) mod CNT))) as [x Hx];
      [by apply mod_CNT_lt_length|].
    assert (Hid : apply_slot id (Z.of_nat (length (popped s)) mod CNT)
                    (mq s) = mq s).
    { unfold apply_slot. rewrite list_alter_id by done.
      by destruct (mq s). }
    rewrite Hid.
    exists (System (pop (mq s)) (reserved s) None (pushed s)
                   (popped s ++ [x])).
    split; [reflexivity|]. split; [|by eauto].
    simpl. rewrite Hf. simpl. by rewrite Hx.
  - exists (System (mq s) (reserved s) None (pushed s) (popped s)).
    split; [reflexivity|]. split; [|reflexivity]. simpl. by rewrite Hf.
Qed.
End SPSC_wrapper_steps.

Section OPT_wrapper_steps.
Import SPSCQueueOPT.
Context {T : Type}.
Variable CNT : Z.
Hypothesis HCNT : static_assert_CNT CNT = true.

Lemma OPT_tryPush_steps (writer : T → T) (s : system T) l :
  inv CNT s →
  let '(b, q', _) := tryPush CNT writer (mq s) l in
  ∃ s', mq s' = q' ∧
        if b : bool
        then ∃ v, run CNT [LAlloc; LWrite v; LPush] s = Some s' ∧
                  pushed s' = pushed s ++ [v]
        else run CNT [LAlloc] s = Some s' ∧ pushed s' = pushed s.
Proof.
  intros Hinv. rewrite OPT_tryPush_eq.
  destruct (alloc CNT (mq s)) as [[p|] q1] eqn:Ha.
  - pose proof (OPT_inv_alloc CNT HCNT s _ _ Hinv Ha)
      as [Hlen _ _ _ _ Hrs _ _ _ _ _ _].
    unfold npushed in *; simpl in Hlen, Hrs.
    destruct (Hrs p eq_refl) as [-> _].
    destruct (OPT_slot_in_bounds CNT HCNT (blk q1) (Z.of_nat (length (pushed s))) Hlen)
      as [k Hk].
    assert (He : apply_slot writer (Z.of_nat (length (pushed s)) mod CNT) q1
                 = apply_slot (λ _, writer (data k))
                     (Z.of_nat (length (pushed s)) mod CNT) q1).
    { unfold apply_slot. f_equal.
      apply list_alter_ext; [|done]. intros y Hy.
      rewrite Hk in Hy. by injection Hy as <-. }
    rewrite He.
    exists (System (push CNT (apply_slot (λ _, writer (data k))
              (Z.of_nat (length (pushed s)) mod CNT) q1))
            None (fronted s) (popping s)
            (pushed s ++ [writer (data k)]) (popped s)).
    split; [reflexivity|]. exists (writer (data k)).
    split; [|reflexivity].
    simpl. rewrite Ha. simpl. rewrite Hk. simpl.
    rewrite list_lookup_alter_eq, Hk. reflexivity.
  - exists (System q1 None (fronted s) (popping s) (pushed s) (popped s)).
    split; [reflexivity|]. split; [|reflexivity]. simpl. by rewrite Ha.
Qed.

Lemma OPT_tryPop_steps (s : system T) l :
  inv CNT s → popping s = false →
  let '(b, q', _) := tryPop CNT id (mq s) l in
  ∃ s', mq s' = q' ∧
        if b : bool
        then run CNT [LFront; LPopAvail; LPopReadIdx] s = Some s' ∧
             ∃ p k, front (mq s) = Some p ∧
                    blk (mq s) !! Z.to_nat p = Some k ∧
                    popped s' = popped s ++ [data k]
        else run CNT [LFront] s = Some s' ∧ popped s' = popped s.
Proof.
  intros Hinv Hpg. rewrite OPT_tryPop_eq.
  assert (Hstep : step CNT LFront s =
            Some (System (mq s) (reserved s) (front (mq s)) false
                         (pushed s) (popped s)))
    by (simpl; by rewrite Hpg).
  pose proof (OPT_inv_step CNT HCNT LFront s _ Hinv Hstep)
    as [Hlen _ _ _ _ _ Hfr _ _ _ _ _].
  unfold npopped in *; simpl in Hlen, Hfr.
  destruct (front (mq s)) as [p|] eqn:Hf.
  - destruct (Hfr p eq_refl) as [-> _].
    destruct (OPT_slot_in_bounds CNT HCNT (blk (mq s)) (Z.of_nat (length (popped s))) Hlen)
      as [k Hk].
    assert (Hid : apply_slot id (Z.of_nat (length (popped s)) mod CNT) (mq s) = mq s).
    { unfold apply_slot. rewrite list_alter_id; [by destruct (mq s)|].
      by intros []. }
    rewrite Hid.
    exists (System (pop CNT (mq s)) (reserved s) None false (pushed s)
                   (popped s ++ [data k])).
    split; [reflexivity|]. split; [|by eauto].
    cbn [run]. rewrite Hstep. simpl. rewrite Hk. simpl.
    assert (Hr : read_idx (mq s) = Z.of_nat (length (popped s)) mod CNT)
      by apply (inv_read _ _ _ Hinv).
    rewrite Hr, list_lookup_alter_eq, Hk. simpl.
    unfold pop, pop_avail. by rewrite Hr.
  - exists (System (mq s) (reserved s) None false (pushed s) (popped s)).
    split; [reflexivity|]. split; [|reflexivity].
    cbn [run]. by rewrite Hstep.
Qed.
End OPT_wrapper_steps.

(** ** Capacity *)

Section SPSC_capacity.
Import SPSCQueue.
Context {T : Type}.
Variable CNT : Z.
Hypothesis HCNT : static_assert_CNT CNT = true.

Lemma SPSC_push_n_free (n : nat) (q : queue T) :
  0 ≤ read_idx_cach q ≤ write_idx q →
  write_idx q - read_idx_cach q + Z.of_nat n ≤ CNT →
  write_idx q + Z.of_nat n < 2 ^ 32 →
  push_n CNT n q =
    Some (Queue (data q) (write_idx q + Z.of_nat n)
                (read_idx_cach q) (read_idx q)).
Proof.
  pose proof (CNT_range CNT HCNT) as HC.
  revert q. induction n as [|n IH]; intros [d w rc rd];
    cbn [push_n data write_idx read_idx_cach read_idx];
    intros Hrc Hcap Hw.
  - by rewrite Z.add_0_r.
  - rewrite Nat2Z.inj_succ in *.
    unfold alloc; cbn [data write_idx read_idx_cach read_idx].
    rewrite (wrap32_small (w - rc)) by lia.
    destruct (Z.eqb_spec (w - rc) CNT) as [?|_]; [lia|].
    rewrite IH; unfold push;
      cbn [data write_idx read_idx_cach read_idx];
      rewrite wrap32_small by lia; try lia.
    do 2 f_equal. lia.
Qed.
End SPSC_capacity.

Section OPT_capacity.
Import SPSCQueueOPT.
Context {T : Type}.
Variable CNT : Z.
Hypothesis HCNT : static_assert_CNT CNT = true.

Lemma OPT_free_count_mod r w :
  Z.land (wrap32 (wrap32 (wrap32 (r - w) + CNT) - 1)) (MASK CNT)
  = (r - w + CNT - 1) mod CNT.
Proof.
  rewrite wrap32_add_l, wrap32_sub_l.
  unfold MASK. by rewrite land_MASK, wrap32_mod_CNT.
Qed.

Lemma OPT_slot_succ_small w :
  0 ≤ w → w + 1 < CNT → Z.land (wrap32 (w + 1)) (MASK CNT) = w + 1.
Proof.
  intros. unfold MASK. rewrite land_MASK, wrap32_mod_CNT by done.
  apply Z.mod_small. lia.
Qed.

(** While the cached count is positive, [alloc] succeeds without
    looking at [read_idx]. *)
Lemma OPT_push_n_free (n : nat) (q : queue T) :
  0 ≤ write_idx q →
  write_idx q + Z.of_nat n < CNT →
  free_write_cnt q = Z.of_nat n →
  ∃ b, push_n CNT n q =
         Some (Queue b (write_idx q + Z.of_nat n) 0 (read_idx q)) ∧
       length b = length (blk q) ∧
       (∀ j, write_idx q ≤ Z.of_nat j < write_idx q + Z.of_nat n →
             (j < length (blk q))%nat →
             avail <$> b !! j = Some true) ∧
       (∀ j, Z.of_nat j < write_idx q → b !! j = blk q !! j).
Proof.
  pose proof (CNT_range CNT HCNT) as HC.
  revert q. induction n as [|n IH]; intros [b w fc rd];
    cbn [push_n blk write_idx free_write_cnt read_idx];
    intros Hw Hcap Hfc.
  - exists b. rewrite Z.add_0_r. subst fc.
    split; [done|]. split; [done|]. split; [|done].
    intros j Hj. lia.
  - rewrite Nat2Z.inj_succ in *.
    unfold alloc; cbn [blk write_idx free_write_cnt read_idx]. subst fc.
    destruct (Z.eqb_spec (Z.succ (Z.of_nat n)) 0) as [?|_]; [lia|].
    destruct (IH (push CNT (Queue b w (Z.succ (Z.of_nat n)) rd)))
      as (b' & Hp & Hlen & Hav & Hold); unfold push;
      cbn [blk write_idx free_write_cnt read_idx];
      rewrite ?OPT_slot_succ_small by lia; try lia.
    { rewrite wrap32_small by lia. lia. }
    exists b'. unfold push in Hp, Hlen, Hav, Hold.
    cbn [blk write_idx free_write_cnt read_idx] in Hp, Hlen, Hav, Hold.
    rewrite OPT_slot_succ_small in Hp, Hav, Hold by lia.
    rewrite length_alter in Hlen, Hav.
    split; [rewrite Hp; do 2 f_equal; lia|]. split; [done|]. split.
    + intros j Hj Hjl.
      destruct (decide (Z.of_nat j = w)) as [<-|Hne].
      * rewrite Hold by lia. rewrite Nat2Z.id, list_lookup_alter_eq.
        destruct (lookup_lt_is_Some_2 b j Hjl) as [k ->]. done.
      * apply Hav; [lia|done].
    + intros j Hj. rewrite Hold by lia.
      apply list_lookup_alter_ne. lia.
Qed.
End OPT_capacity.

(** ** The properties of the specification *)

(** C1. For every interleaving of the producer's and the consumer's calls
    that respects the interface contract, from the initial state, and for
    both queues: the values released by [pop] are, in order, a prefix of
    the values published by [push]; the published values not yet released
    are the elements found in the array between the two cursors; the slot
    handed to the reader by a successful [front] holds the oldest of
    them; every further step acts on that list as the abstract FIFO
    list does ([push] appends at the back, [pop] removes the front); and
    every call that the interface contract allows can be made.  A call of
    [tryPush] is the steps [alloc], write, [push] of such an interleaving
    and a call of [tryPop] the steps [front], [pop] (lemmas
    [SPSC_tryPush_steps], [SPSC_tryPop_steps], [OPT_tryPush_steps],
    [OPT_tryPop_steps]). *)
Theorem C1_fifo_refinement (T : Type) (CNT : Z) (d : list T) :
  static_assert_CNT CNT = true →
  Z.of_nat (length d) = CNT →
  (∀ ls s,
     SPSCQueue.run CNT ls (SPSCQueue.start d) = Some s →
     SPSCQueue.popped s `prefix_of` SPSCQueue.pushed s ∧
     SPSCQueue.pushed s =
       SPSCQueue.popped s ++ SPSCQueue.contents CNT (SPSCQueue.mq s) ∧
     (∀ p, SPSCQueue.fronted s = Some p →
           ∃ v, SPSCQueue.data (SPSCQueue.mq s) !! Z.to_nat p = Some v ∧
                head (SPSCQueue.contents CNT (SPSCQueue.mq s)) = Some v) ∧
     (∀ l s', SPSCQueue.step CNT l s = Some s' →
              SPSCQueue.refines_step CNT l s s') ∧
     (∀ l, SPSCQueue.allowed l s = true →
           is_Some (SPSCQueue.step CNT l s))) ∧
  (∀ ls s,
     SPSCQueueOPT.run CNT ls (SPSCQueueOPT.start CNT d) = Some s →
     SPSCQueueOPT.popped s `prefix_of` SPSCQueueOPT.pushed s ∧
     SPSCQueueOPT.pushed s =
       SPSCQueueOPT.popped s ++
       SPSCQueueOPT.contents CNT (SPSCQueueOPT.mq s) ∧
     (∀ p, SPSCQueueOPT.fronted s = Some p →
           ∃ v, SPSCQueueOPT.data <$>
                  SPSCQueueOPT.blk (SPSCQueueOPT.mq s) !! Z.to_nat p
                = Some v ∧
                head (SPSCQueueOPT.contents CNT (SPSCQueueOPT.mq s))
                = Some v) ∧
     (∀ l s', SPSCQueueOPT.step CNT l s = Some s' →
              SPSCQueueOPT.refines_step CNT l s s') ∧
     (∀ l, SPSCQueueOPT.allowed l s = true →
           is_Some (SPSCQueueOPT.step CNT l s))).
Proof.
  intros HCNT Hd. split; intros ls s Hrun.
  - pose proof (SPSC_reachable_inv CNT HCNT d ls s Hd Hrun) as Hinv.
    pose proof (SPSC_history CNT HCNT s Hinv) as Hh.
    repeat split.
    + eexists. exact Hh.
    + exact Hh.
    + intros p. by apply SPSC_front_head.
    + intros l s'. by apply SPSC_refines.
    + intros l. by apply SPSC_step_allowed.
  - pose proof (OPT_reachable_inv CNT HCNT d ls s Hd Hrun) as Hinv.
    pose proof (OPT_history CNT HCNT s Hinv) as Hh.
    repeat split.
    + eexists. exact Hh.
    + exact Hh.
    + intros p. by apply OPT_front_head.
    + intros l s'. by apply OPT_refines.
    + intros l. by apply OPT_step_allowed.
Qed.

Lemma C1_fifo_refinement_witness :
  ∃ s1 s2,
    SPSCQueue.run 4 SPSC_example_run (SPSCQueue.start [0; 0; 0; 0])
      = Some s1 ∧
    SPSCQueueOPT.run 4 OPT_example_run (SPSCQueueOPT.start 4 [0; 0; 0; 0])
      = Some s2 ∧
    SPSCQueue.popped s1 `prefix_of` SPSCQueue.pushed s1 ∧
    SPSCQueueOPT.popped s2 `prefix_of` SPSCQueueOPT.pushed s2.
Proof.
  destruct (C1_fifo_refinement Z 4 [0; 0; 0; 0] eq_refl eq_refl) as [H1 H2].
  eexists _, _.
  split; [vm_compute; reflexivity|]. split; [vm_compute; reflexivity|].
  split.
  - apply (H1 SPSC_example_run). vm_compute; reflexivity.
  - apply (H2 OPT_example_run). vm_compute; reflexivity.
Defined.

(** C2. [SPSCQueue] with any power-of-two capacity [CNT]: from the
    initial state, [CNT] consecutive [alloc(); push();] all succeed with
    no [pop]; the next [alloc] returns null; [front] then succeeds, and
    after that one [pop] the next [alloc] returns a pointer again. *)
Theorem C2_index_queue_capacity (T : Type) (CNT : Z) (d : list T) :
  static_assert_CNT CNT = true →
  Z.of_nat (length d) = CNT →
  ∃ q,
    SPSCQueue.push_n CNT (Z.to_nat CNT) (SPSCQueue.init d) = Some q ∧
    SPSCQueue.alloc CNT q = (None, q) ∧
    is_Some (SPSCQueue.front CNT q) ∧
    is_Some (fst (SPSCQueue.alloc CNT (SPSCQueue.pop q))).
Proof.
  intros HCNT Hd. pose proof (CNT_range CNT HCNT) as HC.
  eexists. split.
  { apply (SPSC_push_n_free CNT HCNT); simpl; lia. }
  simpl. rewrite Z2Nat.id by lia.
  unfold SPSCQueue.alloc, SPSCQueue.front, SPSCQueue.pop;
    cbn [SPSCQueue.data SPSCQueue.write_idx SPSCQueue.read_idx_cach
         SPSCQueue.read_idx].
  rewrite !Z.add_0_l, Z.sub_0_r, (wrap32_small CNT), Z.eqb_refl by lia.
  rewrite (wrap32_small 1), (wrap32_small (CNT - 1)) by lia.
  split; [done|]. split.
  - destruct (Z.eqb_spec 0 CNT); [lia|eauto].
  - destruct (Z.eqb_spec (CNT - 1) CNT); [lia|]. simpl. eauto.
Qed.

Lemma C2_index_queue_capacity_witness :
  ∃ q,
    SPSCQueue.push_n 4 (Z.to_nat 4) (SPSCQueue.init [0; 0; 0; 0]) = Some q ∧
    SPSCQueue.alloc 4 q = (None, q) ∧
    is_Some (SPSCQueue.front 4 q) ∧
    is_Some (fst (SPSCQueue.alloc 4 (SPSCQueue.pop q))).
Proof. exact (C2_index_queue_capacity Z 4 [0; 0; 0; 0] eq_refl eq_refl). Defined.

Section OPT_capacity_bound.
Import SPSCQueueOPT.
Context {T : Type}.
Variable CNT : Z.
Hypothesis HCNT : static_assert_CNT CNT = true.

Lemma OPT_push_n_add (n m : nat) (q : queue T) :
  push_n CNT (n + m) q = push_n CNT n q ≫= push_n CNT m.
Proof.
  revert q. induction n as [|n IH]; intros q; [done|].
  cbn [Nat.add push_n]. destruct (alloc CNT q) as [[p|] q1]; [|done].
  apply IH.
Qed.

(** The state after [CNT - 1] pushes from the initial state. *)
Lemma OPT_push_n_full (d : list T) :
  Z.of_nat (length d) = CNT →
  ∃ b, push_n CNT (Z.to_nat (CNT - 1)) (init CNT d) =
         Some (Queue b (CNT - 1) 0 0) ∧
       length b = length d ∧
       (∀ j, Z.of_nat j < CNT - 1 → avail <$> b !! j = Some true) ∧
       (CNT = 1 → b = mkBlock false <$> d).
Proof.
  intros Hd. pose proof (CNT_range CNT HCNT) as HC.
  destruct (OPT_push_n_free CNT HCNT (Z.to_nat (CNT - 1)) (init CNT d))
    as (b & Hp & Hlen & Hav & _);
    unfold init in *; cbn [blk write_idx free_write_cnt read_idx] in *;
    rewrite ?wrap32_MASK by done; try lia.
  rewrite Z2Nat.id, Z.add_0_l in Hp by lia.
  rewrite wrap32_MASK in Hp by done.
  rewrite length_fmap in Hlen, Hav.
  exists b. split; [done|]. split; [done|]. split.
  - intros j Hj. apply Hav; lia.
  - intros ->. simpl in Hp. by injection Hp as <-.
Qed.
End OPT_capacity_bound.

(** C3. [SPSCQueueOPT] with any power-of-two capacity [CNT]: from the
    initial state, [CNT - 1] consecutive [alloc(); push();] succeed with
    no [pop], and the next [alloc] returns null; [CNT] consecutive pushes
    do not all succeed, and more generally no interleaving of calls in
    which no [pop] has completed publishes [CNT] elements; when the queue
    is full, [front] succeeds exactly when [CNT >= 2], and after that one
    [pop] one more [alloc(); push();] succeeds and the following [alloc]
    returns null again. *)
Theorem C3_flag_queue_capacity (T : Type) (CNT : Z) (d : list T) :
  static_assert_CNT CNT = true →
  Z.of_nat (length d) = CNT →
  (∃ q,
     SPSCQueueOPT.push_n CNT (Z.to_nat (CNT - 1)) (SPSCQueueOPT.init CNT d)
       = Some q ∧
     SPSCQueueOPT.alloc CNT q = (None, q) ∧
     (is_Some (SPSCQueueOPT.front q) ↔ 2 ≤ CNT) ∧
     (is_Some (SPSCQueueOPT.front q) →
      ∃ q1,
        SPSCQueueOPT.push_n CNT 1 (SPSCQueueOPT.pop CNT q) = Some q1 ∧
        fst (SPSCQueueOPT.alloc CNT q1) = None)) ∧
  SPSCQueueOPT.push_n CNT (Z.to_nat CNT) (SPSCQueueOPT.init CNT d) = None ∧
  (∀ ls s,
     SPSCQueueOPT.run CNT ls (SPSCQueueOPT.start CNT d) = Some s →
     SPSCQueueOPT.popped s = [] →
     Z.of_nat (length (SPSCQueueOPT.pushed s)) ≤ CNT - 1).
Proof.
  intros HCNT Hd. pose proof (CNT_range CNT HCNT) as HC.
  destruct (OPT_push_n_full CNT HCNT d Hd) as (b & Hp & Hlen & Hav & Hb1).
  assert (Hfull : SPSCQueueOPT.alloc CNT (SPSCQueueOPT.Queue b (CNT - 1) 0 0)
                  = (None, SPSCQueueOPT.Queue b (CNT - 1) 0 0)).
  { unfold SPSCQueueOPT.alloc;
      cbn [SPSCQueueOPT.blk SPSCQueueOPT.write_idx
           SPSCQueueOPT.free_write_cnt SPSCQueueOPT.read_idx].
    rewrite OPT_free_count_mod by done.
    replace (0 - (CNT - 1) + CNT - 1) with 0 by lia.
    rewrite Z.mod_0_l by lia. done. }
  split; [|split].
  - assert (Hfront : is_Some (SPSCQueueOPT.front
        (SPSCQueueOPT.Queue b (CNT - 1) 0 0)) ↔ 2 ≤ CNT);
      [|eexists; split; [exact Hp|]; split; [exact Hfull|];
        split; [exact Hfront|]; intros H2%Hfront].
    + unfold SPSCQueueOPT.front;
        cbn [SPSCQueueOPT.blk SPSCQueueOPT.read_idx].
      change (Z.to_nat 0) with 0%nat.
      split.
      * intros Hf. destruct (decide (CNT = 1)) as [H1|]; [|lia].
        rewrite (Hb1 H1), list_lookup_fmap in Hf.
        destruct (d !! 0%nat); simpl in Hf; by apply is_Some_None in Hf.
      * intros H2. specialize (Hav 0%nat ltac:(lia)).
        destruct (b !! 0%nat) as [k|]; [|done]. simpl in Hav.
        injection Hav as ->. eauto.
    + unfold SPSCQueueOPT.push_n, SPSCQueueOPT.pop, SPSCQueueOPT.pop_avail,
        SPSCQueueOPT.pop_read_idx, SPSCQueueOPT.alloc, SPSCQueueOPT.push;
        cbn [SPSCQueueOPT.blk SPSCQueueOPT.write_idx
             SPSCQueueOPT.free_write_cnt SPSCQueueOPT.read_idx fst].
      rewrite (OPT_slot_succ_small CNT HCNT 0) by lia.
      rewrite Z.add_0_l, OPT_free_count_mod by done.
      replace (1 - (CNT - 1) + CNT - 1) with 1 by lia.
      rewrite (Z.mod_small 1) by lia.
      cbn [Z.eqb SPSCQueueOPT.blk SPSCQueueOPT.write_idx
           SPSCQueueOPT.free_write_cnt SPSCQueueOPT.read_idx fst].
      eexists. split; [reflexivity|].
      cbn [SPSCQueueOPT.blk SPSCQueueOPT.write_idx
           SPSCQueueOPT.free_write_cnt SPSCQueueOPT.read_idx fst].
      rewrite Z.sub_diag, (wrap32_small 0) by lia.
      cbn [Z.eqb]. rewrite OPT_free_count_mod by done.
      unfold SPSCQueueOPT.MASK. rewrite land_MASK, wrap32_mod_CNT by done.
      replace (CNT - 1 + 1) with CNT by lia. rewrite Z.mod_same by lia.
      replace (1 - 0 + CNT - 1) with CNT by lia.
      rewrite Z.mod_same by lia. done.
  - replace (Z.to_nat CNT) with (Z.to_nat (CNT - 1) + 1)%nat by lia.
    rewrite OPT_push_n_add, Hp. simpl. by rewrite Hfull.
  - intros ls s Hrun Hpop.
    pose proof (OPT_reachable_inv CNT HCNT d ls s Hd Hrun)
      as [_ _ _ _ Hfree _ _ _ _ _ _ _].
    unfold SPSCQueueOPT.npushed, SPSCQueueOPT.npopped in Hfree.
    rewrite Hpop in Hfree. simpl in Hfree. lia.
Qed.

Lemma C3_flag_queue_capacity_witness :
  (∃ q,
     SPSCQueueOPT.push_n 4 (Z.to_nat (4 - 1))
       (SPSCQueueOPT.init 4 [0; 0; 0; 0]) = Some q ∧
     SPSCQueueOPT.alloc 4 q = (None, q) ∧
     (is_Some (SPSCQueueOPT.front q) ↔ 2 ≤ 4) ∧
     (is_Some (SPSCQueueOPT.front q) →
      ∃ q1,
        SPSCQueueOPT.push_n 4 1 (SPSCQueueOPT.pop 4 q) = Some q1 ∧
        fst (SPSCQueueOPT.alloc 4 q1) = None)) ∧
  SPSCQueueOPT.push_n 4 (Z.to_nat 4) (SPSCQueueOPT.init 4 [0; 0; 0; 0])
    = None.
Proof.
  destruct (C3_flag_queue_capacity Z 4 [0; 0; 0; 0] eq_refl eq_refl)
    as (H1 & H2 & _).
  exact (conj H1 H2).
Defined.

(** C4. [SPSCQueue]: in every state reached from the initial state by
    calls that respect the interface contract ([push] only after a
    successful [alloc], [pop] only after a successful [front]), the 32-bit
    difference [write_idx - read_idx] is at most [CNT], and it is the
    number of elements pushed and not yet popped (the number of [push]
    calls minus the number of [pop] calls, which is also the number of
    elements found between the cursors). *)
Theorem C4_cursor_difference (T : Type) (CNT : Z) (d : list T)
    (ls : list (SPSCQueue.label T)) (s : SPSCQueue.system T) :
  static_assert_CNT CNT = true →
  Z.of_nat (length d) = CNT →
  SPSCQueue.run CNT ls (SPSCQueue.start d) = Some s →
  let diff :=
    wrap32 (SPSCQueue.write_idx (SPSCQueue.mq s) -
            SPSCQueue.read_idx (SPSCQueue.mq s)) in
  0 ≤ diff ≤ CNT ∧
  diff = Z.of_nat (length (SPSCQueue.pushed s)) -
         Z.of_nat (length (SPSCQueue.popped s)) ∧
  diff = Z.of_nat (length (SPSCQueue.contents CNT (SPSCQueue.mq s))).
Proof.
  intros HCNT Hd Hrun.
  pose proof (SPSC_reachable_inv CNT HCNT d ls s Hd Hrun) as Hinv.
  pose proof (SPSC_contents CNT HCNT s Hinv) as Hc.
  destruct Hinv as [_ Hw Hr (c & Hc1 & _ & Hcap & _) Hle _ _ _ _].
  pose proof (CNT_range CNT HCNT).
  unfold SPSCQueue.npushed, SPSCQueue.npopped in *. simpl.
  rewrite Hw, Hr, wrap32_sub, wrap32_small by lia.
  rewrite Hc, length_drop. lia.
Qed.

Lemma C4_cursor_difference_witness :
  ∃ s,
    SPSCQueue.run 4 SPSC_example_run (SPSCQueue.start [0; 0; 0; 0])
      = Some s ∧
    0 ≤ wrap32 (SPSCQueue.write_idx (SPSCQueue.mq s) -
                SPSCQueue.read_idx (SPSCQueue.mq s)) ≤ 4.
Proof.
  eexists. split; [vm_compute; reflexivity|].
  match goal with
  | |- context [SPSCQueue.mq ?s] =>
      refine (proj1 (C4_cursor_difference Z 4 [0; 0; 0; 0]
                       SPSC_example_run s eq_refl eq_refl _))
  end.
  vm_compute; reflexivity.
Defined.

(** C10. [SPSCQueueOPT]: in every state reached from the initial state,
    [write_idx] and [read_idx] are below [CNT], the length of the block
    array, so [blk[write_idx]] and [blk[read_idx]], and the slots behind
    the pointers handed out by [alloc] and [front], are inside the
    array; no call allowed by the interface contract reads or writes
    outside of it. *)
Theorem C10_indices_in_bounds (T : Type) (CNT : Z) (d : list T)
    (ls : list (SPSCQueueOPT.label T)) (s : SPSCQueueOPT.system T) :
  static_assert_CNT CNT = true →
  Z.of_nat (length d) = CNT →
  SPSCQueueOPT.run CNT ls (SPSCQueueOPT.start CNT d) = Some s →
  let q := SPSCQueueOPT.mq s in
  Z.of_nat (length (SPSCQueueOPT.blk q)) = CNT ∧
  0 ≤ SPSCQueueOPT.write_idx q < CNT ∧
  0 ≤ SPSCQueueOPT.read_idx q < CNT ∧
  is_Some (SPSCQueueOPT.blk q !! Z.to_nat (SPSCQueueOPT.write_idx q)) ∧
  is_Some (SPSCQueueOPT.blk q !! Z.to_nat (SPSCQueueOPT.read_idx q)) ∧
  (∀ p, SPSCQueueOPT.reserved s = Some p →
        p = SPSCQueueOPT.write_idx q) ∧
  (∀ p, SPSCQueueOPT.fronted s = Some p →
        p = SPSCQueueOPT.read_idx q) ∧
  (∀ l, SPSCQueueOPT.allowed l s = true →
        is_Some (SPSCQueueOPT.step CNT l s)).
Proof.
  intros HCNT Hd Hrun q.
  pose proof (OPT_reachable_inv CNT HCNT d ls s Hd Hrun) as Hinv.
  pose proof Hinv as [Hlen Hw Hr _ _ Hrs Hfr _ _ _ _ _].
  subst q. rewrite Hw, Hr.
  repeat split; try apply mod_CNT_range; try done.
  - by apply OPT_slot_in_bounds.
  - by apply OPT_slot_in_bounds.
  - intros p Hp. by destruct (Hrs p Hp).
  - intros p Hp. by destruct (Hfr p Hp).
  - intros l. by apply OPT_step_allowed.
Qed.

Lemma C10_indices_in_bounds_witness :
  ∃ s,
    SPSCQueueOPT.run 4 OPT_example_run (SPSCQueueOPT.start 4 [0; 0; 0; 0])
      = Some s ∧
    0 ≤ SPSCQueueOPT.write_idx (SPSCQueueOPT.mq s) < 4 ∧
    0 ≤ SPSCQueueOPT.read_idx (SPSCQueueOPT.mq s) < 4.
Proof.
  eexists. split; [vm_compute; reflexivity|].
  match goal with
  | |- context [SPSCQueueOPT.mq ?s] =>
      assert (Hrun : SPSCQueueOPT.run 4 OPT_example_run
                       (SPSCQueueOPT.start 4 [0; 0; 0; 0]) = Some s)
        by (vm_compute; reflexivity);
      destruct (C10_indices_in_bounds Z 4 [0; 0; 0; 0] OPT_example_run s
                  eq_refl eq_refl Hrun) as (_ & Hw & Hr & _)
  end.
  exact (conj Hw Hr).
Defined.

(** ** [pop] of [SPSCQueueOPT] *)

(** C5, as stated, fails: with [CNT = 4], after three elements went
    through the queue and a fourth one was published, [read_idx] is
    [3 = CNT - 1], [front] succeeds, and [pop] stores [0] in [read_idx],
    not [read_idx + 1 = 4]. *)
Lemma C5_counterexample :
  ∃ s,
    SPSCQueueOPT.run 4 OPT_wrap_run (SPSCQueueOPT.start 4 [0; 0; 0; 0])
      = Some s ∧
    SPSCQueueOPT.read_idx (SPSCQueueOPT.mq s) = 4 - 1 ∧
    SPSCQueueOPT.front (SPSCQueueOPT.mq s) = Some 3 ∧
    SPSCQueueOPT.read_idx (SPSCQueueOPT.pop 4 (SPSCQueueOPT.mq s)) = 0 ∧
    SPSCQueueOPT.read_idx (SPSCQueueOPT.pop 4 (SPSCQueueOPT.mq s)) ≠
      wrap32 (SPSCQueueOPT.read_idx (SPSCQueueOPT.mq s) + 1).
Proof.
  eexists. split; [vm_compute; reflexivity|].
  vm_compute. repeat split; discriminate.
Qed.

(** C5, amended. [SPSCQueueOPT]: in every reachable state in which
    [front] succeeds, [pop] first sets the flag of the block at
    [read_idx] to false and then stores [(read_idx + 1) & MASK], that is
    [(read_idx + 1) mod CNT], in [read_idx]: the index advances by one
    below [CNT - 1] and wraps to [0] at [CNT - 1]; nothing else
    changes. *)
Theorem C5_pop_advances_mod_CNT (T : Type) (CNT : Z) (d : list T)
    (ls : list (SPSCQueueOPT.label T)) (s : SPSCQueueOPT.system T) (p : Z) :
  static_assert_CNT CNT = true →
  Z.of_nat (length d) = CNT →
  SPSCQueueOPT.run CNT ls (SPSCQueueOPT.start CNT d) = Some s →
  SPSCQueueOPT.front (SPSCQueueOPT.mq s) = Some p →
  let q := SPSCQueueOPT.mq s in
  let q1 := SPSCQueueOPT.pop_avail q in
  let q2 := SPSCQueueOPT.pop CNT q in
  p = SPSCQueueOPT.read_idx q ∧
  q1 = SPSCQueueOPT.Queue
         (alter (SPSCQueueOPT.set_avail false) (Z.to_nat p)
                (SPSCQueueOPT.blk q))
         (SPSCQueueOPT.write_idx q) (SPSCQueueOPT.free_write_cnt q)
         (SPSCQueueOPT.read_idx q) ∧
  SPSCQueueOPT.avail <$> SPSCQueueOPT.blk q1 !! Z.to_nat p = Some false ∧
  q2 = SPSCQueueOPT.Queue
         (SPSCQueueOPT.blk q1) (SPSCQueueOPT.write_idx q)
         (SPSCQueueOPT.free_write_cnt q)
         ((SPSCQueueOPT.read_idx q + 1) mod CNT) ∧
  (SPSCQueueOPT.read_idx q < CNT - 1 →
   SPSCQueueOPT.read_idx q2 = SPSCQueueOPT.read_idx q + 1) ∧
  (SPSCQueueOPT.read_idx q = CNT - 1 → SPSCQueueOPT.read_idx q2 = 0).
Proof.
  intros HCNT Hd Hrun Hfront q q1 q2.
  pose proof (CNT_range CNT HCNT) as HC.
  pose proof (OPT_reachable_inv CNT HCNT d ls s Hd Hrun)
    as [Hlen _ Hr _ _ _ _ _ _ _ _ _].
  assert (Hp : p = SPSCQueueOPT.read_idx q).
  { unfold SPSCQueueOPT.front in Hfront. fold q in Hfront.
    destruct (SPSCQueueOPT.blk q !! _) as [k|]; [|done].
    destruct (SPSCQueueOPT.avail k); [|done]. by injection Hfront as <-. }
  assert (Hnext : Z.land (wrap32 (SPSCQueueOPT.read_idx q + 1))
                         (SPSCQueueOPT.MASK CNT)
                  = (SPSCQueueOPT.read_idx q + 1) mod CNT).
  { unfold SPSCQueueOPT.MASK. by rewrite land_MASK, wrap32_mod_CNT. }
  pose proof (mod_CNT_range CNT HCNT (SPSCQueueOPT.npopped s)) as Hrange.
  fold q in Hr, Hlen. rewrite <- Hr in Hrange.
  subst q1 q2.
  unfold SPSCQueueOPT.pop, SPSCQueueOPT.pop_read_idx, SPSCQueueOPT.pop_avail;
    cbn [SPSCQueueOPT.blk SPSCQueueOPT.write_idx
         SPSCQueueOPT.free_write_cnt SPSCQueueOPT.read_idx].
  rewrite Hnext, <- Hp. repeat split; try done.
  - rewrite list_lookup_alter_eq.
    destruct (lookup_lt_is_Some_2 (SPSCQueueOPT.blk q) (Z.to_nat p))
      as [k ->]; [lia|done].
  - intros Hlt. apply Z.mod_small. lia.
  - intros ->. replace (CNT - 1 + 1) with CNT by lia.
    apply Z.mod_same. lia.
Qed.

Lemma C5_pop_advances_mod_CNT_witness :
  ∃ s,
    SPSCQueueOPT.run 4 OPT_wrap_run (SPSCQueueOPT.start 4 [0; 0; 0; 0])
      = Some s ∧
    SPSCQueueOPT.front (SPSCQueueOPT.mq s) = Some 3 ∧
    (SPSCQueueOPT.read_idx (SPSCQueueOPT.mq s) = 4 - 1 →
     SPSCQueueOPT.read_idx (SPSCQueueOPT.pop 4 (SPSCQueueOPT.mq s)) = 0).
Proof.
  eexists. split; [vm_compute; reflexivity|].
  split; [vm_compute; reflexivity|].
  match goal with
  | |- context [SPSCQueueOPT.mq ?s] =>
      assert (Hrun : SPSCQueueOPT.run 4 OPT_wrap_run
                       (SPSCQueueOPT.start 4 [0; 0; 0; 0]) = Some s)
        by (vm_compute; reflexivity);
      assert (Hfront : SPSCQueueOPT.front (SPSCQueueOPT.mq s) = Some 3)
        by (vm_compute; reflexivity);
      destruct (C5_pop_advances_mod_CNT Z 4 [0; 0; 0; 0] OPT_wrap_run s 3
                  eq_refl eq_refl Hrun Hfront) as (_ & _ & _ & _ & _ & H)
  end.
  exact H.
Defined.

(** ** [SPSCQueueOPT] with one block *)

Section OPT_capacity_one.
Import SPSCQueueOPT.
Context {T : Type}.

Lemma OPT_one_recompute (r w : Z) :
  Z.land (wrap32 (wrap32 (wrap32 (r - w) + 1) - 1)) (MASK 1) = 0.
Proof. unfold MASK. change (wrap32 (1 - 1)) with 0. apply Z.land_0_r. Qed.

Lemma OPT_one_alloc (s : system T) :
  inv 1 s → alloc 1 (mq s) = (None, mq s).
Proof.
  intros [_ _ _ Hle Hfree _ _ _ _ _ _ _].
  unfold ncleared in Hle.
  assert (Hfc : free_write_cnt (mq s) = 0) by (destruct (popping s); lia).
  unfold alloc. rewrite Hfc. cbn [Z.eqb free_write_cnt].
  rewrite OPT_one_recompute. cbn [Z.eqb].
  destruct (mq s) as [b w fc rd]. simpl in *. by subst fc.
Qed.

Lemma OPT_one_step (l : label T) (s s' : system T) :
  inv 1 s → pushed s = [] ∧ reserved s = None →
  step 1 l s = Some s' → pushed s' = [] ∧ reserved s' = None.
Proof.
  intros Hinv [Hpu Hres] Hstep. destruct l as [|v| | | |]; simpl in Hstep.
  - rewrite OPT_one_alloc in Hstep by done. by injection Hstep as <-.
  - by rewrite Hres in Hstep.
  - by rewrite Hres in Hstep.
  - destruct (popping s); [done|]. by injection Hstep as <-.
  - destruct (popping s); [done|].
    destruct (fronted s) as [p|]; [|done]. simpl in Hstep.
    destruct (blk (mq s) !! Z.to_nat p); [|done]. by injection Hstep as <-.
  - destruct (popping s); [|done].
    destruct (fronted s) as [p|]; [|done]. simpl in Hstep.
    destruct (blk (mq s) !! Z.to_nat p); [|done]. by injection Hstep as <-.
Qed.

Lemma OPT_one_run (ls : list (label T)) (s s' : system T) :
  inv 1 s → pushed s = [] ∧ reserved s = None →
  run 1 ls s = Some s' → inv 1 s' ∧ pushed s' = [] ∧ reserved s' = None.
Proof.
  revert s. induction ls as [|l ls IH]; intros s Hinv Hs Hrun;
    simpl in Hrun.
  - by injection Hrun as <-.
  - destruct (step 1 l s) as [s1|] eqn:Hstep; [|done].
    apply (IH s1); [|by eapply OPT_one_step|done].
    by eapply (OPT_inv_step 1 eq_refl).
Qed.
End OPT_capacity_one.

(** C6. [SPSCQueueOPT] with [CNT = 1] (which the [static_assert]
    accepts): [free_write_cnt] is initialised to zero, the recomputation
    in [alloc] gives zero whatever the two indices are, and the first
    [alloc] as well as every [alloc] in a state reached from the initial
    state returns null: nothing is ever published, the queue stays empty
    and [front] returns null. *)
Theorem C6_capacity_one_always_full (T : Type) (d : list T) :
  Z.of_nat (length d) = 1 →
  static_assert_CNT 1 = true ∧
  SPSCQueueOPT.free_write_cnt (SPSCQueueOPT.init 1 d) = 0 ∧
  (∀ rd_idx write_idx : Z,
     Z.land (wrap32 (wrap32 (wrap32 (rd_idx - write_idx) + 1) - 1))
            (SPSCQueueOPT.MASK 1) = 0) ∧
  SPSCQueueOPT.alloc 1 (SPSCQueueOPT.init 1 d)
    = (None, SPSCQueueOPT.init 1 d) ∧
  (∀ ls s,
     SPSCQueueOPT.run 1 ls (SPSCQueueOPT.start 1 d) = Some s →
     SPSCQueueOPT.alloc 1 (SPSCQueueOPT.mq s) = (None, SPSCQueueOPT.mq s) ∧
     SPSCQueueOPT.pushed s = [] ∧
     SPSCQueueOPT.contents 1 (SPSCQueueOPT.mq s) = [] ∧
     SPSCQueueOPT.front (SPSCQueueOPT.mq s) = None).
Proof.
  intros Hd.
  pose proof (OPT_inv_start 1 eq_refl d Hd) as Hinv0.
  split; [done|]. split; [done|]. split; [apply OPT_one_recompute|].
  split; [apply (OPT_one_alloc _ Hinv0)|].
  intros ls s Hrun.
  destruct (OPT_one_run ls _ s Hinv0 (conj eq_refl eq_refl) Hrun)
    as (Hinv & Hpu & Hres).
  split; [by apply OPT_one_alloc|]. split; [done|].
  pose proof (OPT_history 1 eq_refl s Hinv) as Hh. rewrite Hpu in Hh.
  symmetry in Hh. apply app_eq_nil in Hh as [Hpo Hc].
  split; [done|].
  destruct Hinv as [_ _ Hr Hle _ _ _ _ _ Haf _ _].
  unfold SPSCQueueOPT.ncleared, SPSCQueueOPT.npushed,
    SPSCQueueOPT.npopped in *.
  rewrite Hpu, Hpo in *. simpl in Hle, Hr.
  destruct (SPSCQueueOPT.popping s); [lia|].
  specialize (Haf 0 ltac:(simpl; lia)).
  unfold SPSCQueueOPT.front. rewrite Hr.
  change (Z.of_nat 0 `mod` 1) with 0.
  change (0 `mod` 1) with 0 in Haf.
  destruct (SPSCQueueOPT.blk (SPSCQueueOPT.mq s) !! Z.to_nat 0) as [k|];
    [|done].
  simpl in Haf. by injection Haf as ->.
Qed.

Lemma C6_capacity_one_always_full_witness :
  ∃ s,
    SPSCQueueOPT.run 1 OPT_one_run_example (SPSCQueueOPT.start 1 [0])
      = Some s ∧
    SPSCQueueOPT.alloc 1 (SPSCQueueOPT.mq s) = (None, SPSCQueueOPT.mq s).
Proof.
  eexists. split; [vm_compute; reflexivity|].
  match goal with
  | |- context [SPSCQueueOPT.mq ?s] =>
      assert (Hrun : SPSCQueueOPT.run 1 OPT_one_run_example
                       (SPSCQueueOPT.start 1 [0]) = Some s)
        by (vm_compute; reflexivity);
      destruct (C6_capacity_one_always_full Z [0] eq_refl)
        as (_ & _ & _ & _ & H);
      destruct (H OPT_one_run_example s Hrun) as [Ha _]
  end.
  exact Ha.
Defined.

(** C7. For both queues and every state: [tryPush] returns false exactly
    when [alloc] returns null, and [tryPop] returns false exactly when
    [front] returns null.  On failure the only call made is that [alloc]
    (or [front]): the callback is not invoked.  On success the calls are,
    in this order, [alloc] (or [front]) returning a pointer [p], the
    callback on [p], once, and [push] (or [pop]); the resulting state is
    that [push] (or [pop]) applied to the state the callback left. *)
Theorem C7_try_wrappers (T : Type) (CNT : Z) (writer reader : T → T)
    (l : list event) :
  (∀ q : SPSCQueue.queue T,
     SPSCQueue.tryPush CNT writer q l =
       match SPSCQueue.alloc CNT q with
       | (None, q1) => (false, q1, l ++ [EvAlloc None])
       | (Some p, q1) =>
           (true, SPSCQueue.push (SPSCQueue.apply_slot writer p q1),
            l ++ [EvAlloc (Some p); EvWriter p; EvPush])
       end ∧
     (fst (fst (SPSCQueue.tryPush CNT writer q l)) = false ↔
      fst (SPSCQueue.alloc CNT q) = None) ∧
     SPSCQueue.tryPop CNT reader q l =
       match SPSCQueue.front CNT q with
       | None => (false, q, l ++ [EvFront None])
       | Some v =>
           (true, SPSCQueue.pop (SPSCQueue.apply_slot reader v q),
            l ++ [EvFront (Some v); EvReader v; EvPop])
       end ∧
     (fst (fst (SPSCQueue.tryPop CNT reader q l)) = false ↔
      SPSCQueue.front CNT q = None)) ∧
  (∀ q : SPSCQueueOPT.queue T,
     SPSCQueueOPT.tryPush CNT writer q l =
       match SPSCQueueOPT.alloc CNT q with
       | (None, q1) => (false, q1, l ++ [EvAlloc None])
       | (Some p, q1) =>
           (true,
            SPSCQueueOPT.push CNT (SPSCQueueOPT.apply_slot writer p q1),
            l ++ [EvAlloc (Some p); EvWriter p; EvPush])
       end ∧
     (fst (fst (SPSCQueueOPT.tryPush CNT writer q l)) = false ↔
      fst (SPSCQueueOPT.alloc CNT q) = None) ∧
     SPSCQueueOPT.tryPop CNT reader q l =
       match SPSCQueueOPT.front q with
       | None => (false, q, l ++ [EvFront None])
       | Some v =>
           (true, SPSCQueueOPT.pop CNT (SPSCQueueOPT.apply_slot reader v q),
            l ++ [EvFront (Some v); EvReader v; EvPop])
       end ∧
     (fst (fst (SPSCQueueOPT.tryPop CNT reader q l)) = false ↔
      SPSCQueueOPT.front q = None)).
Proof.
  split; intros q.
  - rewrite SPSC_tryPush_eq, SPSC_tryPop_eq.
    repeat split; try done.
    + destruct (SPSCQueue.alloc CNT q) as [[p|] q1]; done.
    + destruct (SPSCQueue.alloc CNT q) as [[p|] q1]; done.
    + destruct (SPSCQueue.front CNT q); done.
    + destruct (SPSCQueue.front CNT q); done.
  - rewrite OPT_tryPush_eq, OPT_tryPop_eq.
    repeat split; try done.
    + destruct (SPSCQueueOPT.alloc CNT q) as [[p|] q1]; done.
    + destruct (SPSCQueueOPT.alloc CNT q) as [[p|] q1]; done.
    + destruct (SPSCQueueOPT.front q); done.
    + destruct (SPSCQueueOPT.front q); done.
Qed.

Lemma C7_try_wrappers_witness :
  let q1 := SPSCQueue.Queue [0; 0; 0; 0] 4 0 0 in
  let q2 := SPSCQueueOPT.init 4 [0; 0; 0; 0] in
  fst (fst (SPSCQueue.tryPush 4 (λ _, 9) q1 [])) = false ∧
  fst (fst (SPSCQueueOPT.tryPop 4 id q2 [])) = false.
Proof.
  intros q1 q2.
  destruct (C7_try_wrappers Z 4 (λ _, 9) id []) as [H1 H2].
  destruct (H1 q1) as (_ & Hpush & _).
  destruct (H2 q2) as (_ & _ & _ & Hpop).
  split.
  - apply Hpush. vm_compute. reflexivity.
  - apply Hpop. vm_compute. reflexivity.
Defined.

(** C8. For both queues, [blockPush] is the loop that calls [tryPush]
    until a call returns true, making no other call.  When [alloc]
    returns a pointer [p] in the state [blockPush] starts in, the loop
    ends after its first iteration, whatever the bound on iterations:
    the calls made are one [alloc], the writer on [p], once, and one
    [push].  When [alloc] returns null and no consumer runs, the loop
    does not end: each of its iterations is one failed [alloc]. *)
Theorem C8_blockPush (T : Type) (CNT : Z) (writer : T → T) (l : list event)
    (fuel : nat) :
  (∀ q : SPSCQueue.queue T,
     SPSCQueue.blockPush CNT (S fuel) writer q l =
       match SPSCQueue.tryPush CNT writer q l with
       | (true, q', l') => (Some tt, q', l')
       | (false, q', l') => SPSCQueue.blockPush CNT fuel writer q' l'
       end ∧
     (∀ p q1, SPSCQueue.alloc CNT q = (Some p, q1) →
        SPSCQueue.blockPush CNT (S fuel) writer q l =
          (Some tt, SPSCQueue.push (SPSCQueue.apply_slot writer p q1),
           l ++ [EvAlloc (Some p); EvWriter p; EvPush])) ∧
     (∀ q1, SPSCQueue.alloc CNT q = (None, q1) →
        SPSCQueue.blockPush CNT (S fuel) writer q l =
          (None, q1, l ++ replicate (S fuel) (EvAlloc None)))) ∧
  (∀ q : SPSCQueueOPT.queue T,
     SPSCQueueOPT.blockPush CNT (S fuel) writer q l =
       match SPSCQueueOPT.tryPush CNT writer q l with
       | (true, q', l') => (Some tt, q', l')
       | (false, q', l') => SPSCQueueOPT.blockPush CNT fuel writer q' l'
       end ∧
     (∀ p q1, SPSCQueueOPT.alloc CNT q = (Some p, q1) →
        SPSCQueueOPT.blockPush CNT (S fuel) writer q l =
          (Some tt,
           SPSCQueueOPT.push CNT (SPSCQueueOPT.apply_slot writer p q1),
           l ++ [EvAlloc (Some p); EvWriter p; EvPush])) ∧
     (∀ q1, SPSCQueueOPT.alloc CNT q = (None, q1) →
        SPSCQueueOPT.blockPush CNT (S fuel) writer q l =
          (None, q1, l ++ replicate (S fuel) (EvAlloc None)))).
Proof.
  split; intros q.
  - split; [apply SPSC_blockPush_unfold|]. split.
    + intros p q1 Ha.
      by rewrite SPSC_blockPush_unfold, SPSC_tryPush_eq, Ha.
    + intros q1 Ha. by rewrite (SPSC_blockPush_spin CNT _ _ q q1).
  - split; [apply OPT_blockPush_unfold|]. split.
    + intros p q1 Ha.
      by rewrite OPT_blockPush_unfold, OPT_tryPush_eq, Ha.
    + intros q1 Ha. rewrite (OPT_blockPush_spin CNT _ _ q q1) by done.
      by destruct (OPT_alloc_None CNT _ _ Ha) as [-> _].
Qed.

Lemma C8_blockPush_witness :
  let q1 := SPSCQueue.init [0; 0; 0; 0] in
  let q2 := SPSCQueueOPT.init 4 [0; 0; 0; 0] in
  SPSCQueue.blockPush 4 3 (λ _, 9) q1 [] =
    (Some tt, SPSCQueue.push (SPSCQueue.apply_slot (λ _, 9) 0 q1),
     [EvAlloc (Some 0); EvWriter 0; EvPush]) ∧
  SPSCQueueOPT.blockPush 4 3 (λ _, 9) q2 [] =
    (Some tt, SPSCQueueOPT.push 4 (SPSCQueueOPT.apply_slot (λ _, 9) 0 q2),
     [EvAlloc (Some 0); EvWriter 0; EvPush]).
Proof.
  intros q1 q2.
  destruct (C8_blockPush Z 4 (λ _, 9) [] 2) as [H1 H2].
  destruct (H1 q1) as (_ & Hs1 & _). destruct (H2 q2) as (_ & Hs2 & _).
  split.
  - apply (Hs1 0 q1). vm_compute. reflexivity.
  - apply (Hs2 0 q2). vm_compute. reflexivity.
Defined.

(** C9. For both queues and every state: when [tryPush] returns false,
    [write_idx], [read_idx] and the array (for [SPSCQueueOPT]: data and
    flags) are what they were; only the producer's cache may have been
    written ([read_idx_cach], which now equals [read_idx];
    [free_write_cnt], whose value is zero before and after).  When
    [tryPop] returns false, the state is what it was. *)
Theorem C9_failure_leaves_state (T : Type) (CNT : Z) (writer reader : T → T)
    (l l' : list event) :
  (∀ q q' : SPSCQueue.queue T,
     (SPSCQueue.tryPush CNT writer q l = (false, q', l') →
      SPSCQueue.write_idx q' = SPSCQueue.write_idx q ∧
      SPSCQueue.read_idx q' = SPSCQueue.read_idx q ∧
      SPSCQueue.data q' = SPSCQueue.data q ∧
      SPSCQueue.read_idx_cach q' = SPSCQueue.read_idx q) ∧
     (SPSCQueue.tryPop CNT reader q l = (false, q', l') → q' = q)) ∧
  (∀ q q' : SPSCQueueOPT.queue T,
     (SPSCQueueOPT.tryPush CNT writer q l = (false, q', l') →
      SPSCQueueOPT.write_idx q' = SPSCQueueOPT.write_idx q ∧
      SPSCQueueOPT.read_idx q' = SPSCQueueOPT.read_idx q ∧
      SPSCQueueOPT.blk q' = SPSCQueueOPT.blk q ∧
      SPSCQueueOPT.free_write_cnt q = 0 ∧
      SPSCQueueOPT.free_write_cnt q' = 0) ∧
     (SPSCQueueOPT.tryPop CNT reader q l = (false, q', l') → q' = q)).
Proof.
  split; intros q q'; split.
  - rewrite SPSC_tryPush_eq. unfold SPSCQueue.alloc.
    destruct (_ =? CNT); [|done]. simpl.
    destruct (_ =? CNT); [|done]. by intros [= <- _].
  - rewrite SPSC_tryPop_eq. destruct (SPSCQueue.front CNT q); [done|].
    by intros [= <- _].
  - rewrite OPT_tryPush_eq.
    destruct (SPSCQueueOPT.alloc CNT q) as [[p|] q1] eqn:Ha; [done|].
    intros [= <- _]. by destruct (OPT_alloc_None CNT _ _ Ha) as [-> ->].
  - rewrite OPT_tryPop_eq. destruct (SPSCQueueOPT.front q); [done|].
    by intros [= <- _].
Qed.

Lemma C9_failure_leaves_state_witness :
  let q1 := SPSCQueue.Queue [1; 2; 3; 4] 5 1 1 in
  let q1' := SPSCQueue.Queue [1; 2; 3; 4] 5 1 1 in
  let q2 := SPSCQueueOPT.init 4 [0; 0; 0; 0] in
  (SPSCQueue.write_idx q1' = SPSCQueue.write_idx q1 ∧
   SPSCQueue.read_idx q1' = SPSCQueue.read_idx q1 ∧
   SPSCQueue.data q1' = SPSCQueue.data q1 ∧
   SPSCQueue.read_idx_cach q1' = SPSCQueue.read_idx q1) ∧
  q2 = q2.
Proof.
  intros q1 q1' q2.
  destruct (C9_failure_leaves_state Z 4 (λ _, 9) id [] [EvAlloc None])
    as [H1 _].
  destruct (C9_failure_leaves_state Z 4 (λ _, 9) id [] [EvFront None])
    as [_ H2].
  split.
  - apply (H1 q1 q1'). vm_compute. reflexivity.
  - apply (H2 q2 q2). vm_compute. reflexivity.
Defined.

(** * Further properties of the code *)

(** ** The capacity check and the index mask *)

(** X1. The [static_assert] of both classes accepts exactly the powers of two
    that fit a [uint32_t]: [1, 2, 4, ..., 2^31]. *)
Theorem static_assert_CNT_iff_pow2 (CNT : Z) :
  static_assert_CNT CNT = true ↔ ∃ k, 0 ≤ k < 32 ∧ CNT = 2 ^ k.
Proof.
  split; [apply CNT_pow2|]. intros (k & Hk & ->).
  assert (H0 : 0 < 2 ^ k) by (apply Z.pow_pos_nonneg; lia).
  assert (H1 : 2 ^ k < 2 ^ 32) by (apply Z.pow_lt_mono_r; lia).
  unfold static_assert_CNT. rewrite (wrap32_small (2 ^ k - 1)) by lia.
  replace (2 ^ k - 1) with (Z.ones k) by (rewrite Z.ones_equiv; lia).
  rewrite Z.land_ones, Z.mod_same by lia.
  repeat (apply andb_true_intro; split); try apply negb_true_iff; lia.
Qed.

Lemma static_assert_CNT_iff_pow2_witness :
  static_assert_CNT (2 ^ 31) = true ∧ ∃ k, 0 ≤ k < 32 ∧ 4 = 2 ^ k.
Proof.
  split.
  - apply (proj2 (static_assert_CNT_iff_pow2 (2 ^ 31))).
    exists 31. split; [lia|reflexivity].
  - apply (proj1 (static_assert_CNT_iff_pow2 4)). reflexivity.
Defined.

(** X2. For an accepted [CNT], masking with [MASK = CNT - 1] is the remainder
    modulo [CNT] (the remark next to the [static_assert]), for every
    integer, in both classes; the result is an index below [CNT]. *)
Theorem MASK_is_modulo (CNT x : Z) :
  static_assert_CNT CNT = true →
  Z.land x (SPSCQueue.MASK CNT) = x mod CNT ∧
  Z.land x (SPSCQueueOPT.MASK CNT) = x mod CNT ∧
  0 ≤ Z.land x (SPSCQueue.MASK CNT) < CNT.
Proof.
  intros HCNT. unfold SPSCQueue.MASK, SPSCQueueOPT.MASK.
  rewrite land_MASK by done. repeat split; try apply mod_CNT_range; done.
Qed.

Lemma MASK_is_modulo_witness :
  Z.land 4294967295 (SPSCQueue.MASK 8) = 4294967295 mod 8 ∧
  Z.land 4294967295 (SPSCQueueOPT.MASK 8) = 4294967295 mod 8 ∧
  0 ≤ Z.land 4294967295 (SPSCQueue.MASK 8) < 8.
Proof. exact (MASK_is_modulo 8 4294967295 eq_refl). Defined.

(** X3. [SPSCQueue], every state (reachable or not): a pointer returned by
    [alloc] or by [front] is an index below [CNT], hence inside an array
    of [CNT] slots. *)
Theorem SPSC_pointers_in_bounds (T : Type) (CNT : Z)
    (q : SPSCQueue.queue T) (p : Z) :
  static_assert_CNT CNT = true →
  Z.of_nat (length (SPSCQueue.data q)) = CNT →
  fst (SPSCQueue.alloc CNT q) = Some p ∨ SPSCQueue.front CNT q = Some p →
  0 ≤ p < CNT ∧ is_Some (SPSCQueue.data q !! Z.to_nat p).
Proof.
  intros HCNT Hlen Hp.
  assert (Hm : ∃ x, p = x mod CNT).
  { destruct Hp as [Hp|Hp].
    - unfold SPSCQueue.alloc, SPSCQueue.MASK in Hp.
      repeat destruct (_ =? _) in Hp; simpl in Hp; try done;
        injection Hp as <-; rewrite land_MASK by done; eauto.
    - unfold SPSCQueue.front, SPSCQueue.MASK in Hp.
      destruct (_ =? _) in Hp; [done|].
      injection Hp as <-. rewrite land_MASK by done. eauto. }
  destruct Hm as [x ->]. split; [by apply mod_CNT_range|].
  apply lookup_lt_is_Some_2. by apply mod_CNT_lt_length.
Qed.

Lemma SPSC_pointers_in_bounds_witness :
  0 ≤ 3 < 4 ∧
  is_Some (SPSCQueue.data (SPSCQueue.Queue [1; 2; 3; 4] 4294967295 0
                             4294967292) !! Z.to_nat 3).
Proof.
  apply (SPSC_pointers_in_bounds Z 4
           (SPSCQueue.Queue [1; 2; 3; 4] 4294967295 0 4294967292) 3
           eq_refl eq_refl).
  left. vm_compute. reflexivity.
Defined.

(** X4. [SPSCQueue], every state: the slot of the cursor after [push] (after
    [pop]) is the cyclic successor of the slot before it, also when the
    32-bit cursor overflows from [2^32 - 1] to [0]. *)
Theorem SPSC_slot_successor (T : Type) (CNT : Z) (q : SPSCQueue.queue T) :
  static_assert_CNT CNT = true →
  Z.land (SPSCQueue.write_idx (SPSCQueue.push q)) (SPSCQueue.MASK CNT) =
    (Z.land (SPSCQueue.write_idx q) (SPSCQueue.MASK CNT) + 1) mod CNT ∧
  Z.land (SPSCQueue.read_idx (SPSCQueue.pop q)) (SPSCQueue.MASK CNT) =
    (Z.land (SPSCQueue.read_idx q) (SPSCQueue.MASK CNT) + 1) mod CNT.
Proof.
  intros HCNT. unfold SPSCQueue.MASK, SPSCQueue.push, SPSCQueue.pop.
  cbn [SPSCQueue.write_idx SPSCQueue.read_idx].
  rewrite !land_MASK, !wrap32_mod_CNT, !Zplus_mod_idemp_l by done. done.
Qed.

Lemma SPSC_slot_successor_witness :
  let q := SPSCQueue.Queue [1; 2; 3; 4] 4294967295 4294967295 4294967295 in
  SPSCQueue.write_idx (SPSCQueue.push q) = 0 ∧
  Z.land (SPSCQueue.write_idx (SPSCQueue.push q)) (SPSCQueue.MASK 4) =
    (Z.land (SPSCQueue.write_idx q) (SPSCQueue.MASK 4) + 1) mod 4.
Proof.
  intros q. split; [reflexivity|].
  exact (proj1 (SPSC_slot_successor Z 4 q eq_refl)).
Defined.

(** X9. Both classes, every state: [alloc] is idempotent.  A second [alloc]
    with no [push] in between returns what the first returned and leaves
    the state the first left. *)
Theorem alloc_idempotent (T : Type) (CNT : Z) :
  (∀ q : SPSCQueue.queue T,
     SPSCQueue.alloc CNT (snd (SPSCQueue.alloc CNT q)) =
     SPSCQueue.alloc CNT q) ∧
  (∀ q : SPSCQueueOPT.queue T,
     SPSCQueueOPT.alloc CNT (snd (SPSCQueueOPT.alloc CNT q)) =
     SPSCQueueOPT.alloc CNT q).
Proof.
  split; intros q.
  - destruct q as [d w rc rd]. unfold SPSCQueue.alloc.
    cbn [SPSCQueue.data SPSCQueue.write_idx SPSCQueue.read_idx_cach
         SPSCQueue.read_idx].
    destruct (wrap32 (w - rc) =? CNT) eqn:H1.
    + destruct (wrap32 (w - rd) =? CNT) eqn:H2;
        cbn [snd SPSCQueue.data SPSCQueue.write_idx
             SPSCQueue.read_idx_cach SPSCQueue.read_idx];
        by rewrite H2.
    + cbn [snd SPSCQueue.data SPSCQueue.write_idx
           SPSCQueue.read_idx_cach SPSCQueue.read_idx].
      by rewrite H1.
  - destruct q as [b w fc rd]. unfold SPSCQueueOPT.alloc.
    cbn [SPSCQueueOPT.blk SPSCQueueOPT.write_idx
         SPSCQueueOPT.free_write_cnt SPSCQueueOPT.read_idx].
    destruct (fc =? 0) eqn:H1.
    + destruct (Z.land _ _ =? 0) eqn:H2;
        cbn [snd SPSCQueueOPT.blk SPSCQueueOPT.write_idx
             SPSCQueueOPT.free_write_cnt SPSCQueueOPT.read_idx];
        by rewrite H2.
    + cbn [snd SPSCQueueOPT.blk SPSCQueueOPT.write_idx
           SPSCQueueOPT.free_write_cnt SPSCQueueOPT.read_idx].
      by rewrite H1.
Qed.

(** ** Empty and full, as the two threads see them *)

Section SPSC_reachable_facts.
Import SPSCQueue.
Context {T : Type}.
Variable CNT : Z.
Hypothesis HCNT : static_assert_CNT CNT = true.

Lemma SPSC_contents_length (s : system T) :
  inv CNT s →
  Z.of_nat (length (contents CNT (mq s))) = npushed s - npopped s.
Proof.
  intros Hinv. rewrite SPSC_contents by done.
  pose proof (inv_le _ _ _ Hinv). unfold npushed, npopped in *.
  rewrite length_drop. lia.
Qed.

Lemma SPSC_slot_at_index (s : system T) k :
  inv CNT s →
  Z.land (wrap32 (read_idx (mq s) + k)) (MASK CNT)
  = (npopped s + k) mod CNT.
Proof.
  intros Hinv. rewrite (inv_read _ _ _ Hinv), wrap32_add_l.
  by apply SPSC_slot_of_cursor.
Qed.
End SPSC_reachable_facts.

Section OPT_reachable_facts.
Import SPSCQueueOPT.
Context {T : Type}.
Variable CNT : Z.
Hypothesis HCNT : static_assert_CNT CNT = true.

Lemma OPT_popped_le_pushed (s : system T) :
  inv CNT s → npopped s ≤ npushed s.
Proof.
  intros Hinv. pose proof (inv_le _ _ _ Hinv) as Hle.
  unfold ncleared in Hle. destruct (popping s); lia.
Qed.

Lemma OPT_contents_length (s : system T) :
  inv CNT s →
  Z.of_nat (length (contents CNT (mq s))) = npushed s - npopped s.
Proof.
  intros Hinv. rewrite OPT_contents by done.
  pose proof (OPT_popped_le_pushed s Hinv). unfold npushed, npopped in *.
  rewrite length_drop. lia.
Qed.

Lemma OPT_slot_at_index (s : system T) k :
  inv CNT s →
  Z.land (wrap32 (read_idx (mq s) + k)) (MASK CNT)
  = (npopped s + k) mod CNT.
Proof.
  intros Hinv. unfold MASK.
  rewrite land_MASK, wrap32_mod_CNT, (inv_read _ _ _ Hinv) by done.
  apply Zplus_mod_idemp_l.
Qed.
End OPT_reachable_facts.

(** X5. [SPSCQueue], every reachable state: [front] returns null exactly when
    no element is in flight (no false emptiness, no stale element). *)
Theorem SPSC_front_null_iff_empty (T : Type) (CNT : Z) (d : list T)
    (ls : list (SPSCQueue.label T)) (s : SPSCQueue.system T) :
  static_assert_CNT CNT = true →
  Z.of_nat (length d) = CNT →
  SPSCQueue.run CNT ls (SPSCQueue.start d) = Some s →
  SPSCQueue.front CNT (SPSCQueue.mq s) = None ↔
  SPSCQueue.contents CNT (SPSCQueue.mq s) = [].
Proof.
  intros HCNT Hd Hrun.
  pose proof (SPSC_reachable_inv CNT HCNT d ls s Hd Hrun) as Hinv.
  rewrite (SPSC_front_empty CNT HCNT s Hinv).
  pose proof (SPSC_contents_length CNT HCNT s Hinv) as Hlen.
  split.
  - intros He. apply nil_length_inv. lia.
  - intros Hc. rewrite Hc in Hlen. simpl in Hlen. lia.
Qed.

Lemma SPSC_front_null_iff_empty_witness :
  SPSCQueue.front 4 (SPSCQueue.mq (SPSCQueue.start [0; 0; 0; 0])) = None.
Proof.
  apply (proj2 (SPSC_front_null_iff_empty Z 4 [0; 0; 0; 0] []
                  (SPSCQueue.start [0; 0; 0; 0]) eq_refl eq_refl eq_refl)).
  vm_compute. reflexivity.
Defined.

(** X6. [SPSCQueue], every reachable state: [alloc] returns null exactly when
    [CNT] elements are in flight; the stale [read_idx_cach] never makes
    it report a queue with room as full. *)
Theorem SPSC_alloc_null_iff_full (T : Type) (CNT : Z) (d : list T)
    (ls : list (SPSCQueue.label T)) (s : SPSCQueue.system T) :
  static_assert_CNT CNT = true →
  Z.of_nat (length d) = CNT →
  SPSCQueue.run CNT ls (SPSCQueue.start d) = Some s →
  fst (SPSCQueue.alloc CNT (SPSCQueue.mq s)) = None ↔
  Z.of_nat (length (SPSCQueue.contents CNT (SPSCQueue.mq s))) = CNT.
Proof.
  intros HCNT Hd Hrun.
  pose proof (SPSC_reachable_inv CNT HCNT d ls s Hd Hrun) as Hinv.
  rewrite (SPSC_alloc_full CNT HCNT s Hinv).
  by rewrite (SPSC_contents_length CNT HCNT s Hinv).
Qed.

Lemma SPSC_alloc_null_iff_full_witness :
  ∃ s,
    SPSCQueue.run 4 SPSC_full_run (SPSCQueue.start [0; 0; 0; 0]) = Some s ∧
    fst (SPSCQueue.alloc 4 (SPSCQueue.mq s)) = None.
Proof.
  eexists. split; [vm_compute; reflexivity|].
  match goal with
  | |- context [SPSCQueue.mq ?s] =>
      refine (proj2 (SPSC_alloc_null_iff_full Z 4 [0; 0; 0; 0]
                       SPSC_full_run s eq_refl eq_refl _) _)
  end; vm_compute; reflexivity.
Defined.

(** X7. [SPSCQueueOPT], every reachable state in which the consumer is not
    in the middle of a [pop]: [front] returns null exactly when no
    element is in flight. *)
Theorem OPT_front_null_iff_empty (T : Type) (CNT : Z) (d : list T)
    (ls : list (SPSCQueueOPT.label T)) (s : SPSCQueueOPT.system T) :
  static_assert_CNT CNT = true →
  Z.of_nat (length d) = CNT →
  SPSCQueueOPT.run CNT ls (SPSCQueueOPT.start CNT d) = Some s →
  SPSCQueueOPT.popping s = false →
  SPSCQueueOPT.front (SPSCQueueOPT.mq s) = None ↔
  SPSCQueueOPT.contents CNT (SPSCQueueOPT.mq s) = [].
Proof.
  intros HCNT Hd Hrun Hpg.
  pose proof (OPT_reachable_inv CNT HCNT d ls s Hd Hrun) as Hinv.
  rewrite (OPT_front_empty CNT HCNT s Hinv Hpg).
  pose proof (OPT_contents_length CNT HCNT s Hinv) as Hlen.
  pose proof (OPT_popped_le_pushed CNT s Hinv).
  split.
  - intros He. apply nil_length_inv. lia.
  - intros Hc. rewrite Hc in Hlen. simpl in Hlen. lia.
Qed.

Lemma OPT_front_null_iff_empty_witness :
  SPSCQueueOPT.front (SPSCQueueOPT.mq (SPSCQueueOPT.start 4 [0; 0; 0; 0]))
  = None.
Proof.
  apply (proj2 (OPT_front_null_iff_empty Z 4 [0; 0; 0; 0] []
                  (SPSCQueueOPT.start 4 [0; 0; 0; 0])
                  eq_refl eq_refl eq_refl eq_refl)).
  vm_compute. reflexivity.
Defined.

(** X8. [SPSCQueueOPT], every reachable state: [alloc] returns null exactly
    when [CNT - 1] elements are in flight (an element stays in flight
    until its [pop] has stored [read_idx]); the cached count never makes
    it report a queue with room as full. *)
Theorem OPT_alloc_null_iff_full (T : Type) (CNT : Z) (d : list T)
    (ls : list (SPSCQueueOPT.label T)) (s : SPSCQueueOPT.system T) :
  static_assert_CNT CNT = true →
  Z.of_nat (length d) = CNT →
  SPSCQueueOPT.run CNT ls (SPSCQueueOPT.start CNT d) = Some s →
  fst (SPSCQueueOPT.alloc CNT (SPSCQueueOPT.mq s)) = None ↔
  Z.of_nat (length (SPSCQueueOPT.contents CNT (SPSCQueueOPT.mq s)))
  = CNT - 1.
Proof.
  intros HCNT Hd Hrun.
  pose proof (OPT_reachable_inv CNT HCNT d ls s Hd Hrun) as Hinv.
  rewrite (OPT_alloc_full CNT HCNT s Hinv).
  by rewrite (OPT_contents_length CNT HCNT s Hinv).
Qed.

Lemma OPT_alloc_null_iff_full_witness :
  ∃ s,
    SPSCQueueOPT.run 4 OPT_full_run (SPSCQueueOPT.start 4 [0; 0; 0; 0])
      = Some s ∧
    fst (SPSCQueueOPT.alloc 4 (SPSCQueueOPT.mq s)) = None.
Proof.
  eexists. split; [vm_compute; reflexivity|].
  match goal with
  | |- context [SPSCQueueOPT.mq ?s] =>
      refine (proj2 (OPT_alloc_null_iff_full Z 4 [0; 0; 0; 0]
                       OPT_full_run s eq_refl eq_refl _) _)
  end; vm_compute; reflexivity.
Defined.

(** ** What the producer may touch *)

(** X10. Both classes, every reachable state: the slot the producer holds
    after a successful [alloc] holds none of the elements in flight; in
    particular it is not the slot the consumer holds after a successful
    [front].  The writer never overwrites an unread element and the two
    callbacks never work on the same slot. *)
Theorem reserved_slot_not_in_flight (T : Type) (CNT : Z) (d : list T) :
  static_assert_CNT CNT = true →
  Z.of_nat (length d) = CNT →
  (∀ ls s p,
     SPSCQueue.run CNT ls (SPSCQueue.start d) = Some s →
     SPSCQueue.reserved s = Some p →
     (∀ k, 0 ≤ k <
             Z.of_nat (length (SPSCQueue.contents CNT (SPSCQueue.mq s))) →
           Z.land (wrap32 (SPSCQueue.read_idx (SPSCQueue.mq s) + k))
                  (SPSCQueue.MASK CNT) ≠ p) ∧
     SPSCQueue.fronted s ≠ Some p) ∧
  (∀ ls s p,
     SPSCQueueOPT.run CNT ls (SPSCQueueOPT.start CNT d) = Some s →
     SPSCQueueOPT.reserved s = Some p →
     (∀ k, 0 ≤ k <
             Z.of_nat (length (SPSCQueueOPT.contents CNT
                                 (SPSCQueueOPT.mq s))) →
           Z.land (wrap32 (SPSCQueueOPT.read_idx (SPSCQueueOPT.mq s) + k))
                  (SPSCQueueOPT.MASK CNT) ≠ p) ∧
     SPSCQueueOPT.fronted s ≠ Some p).
Proof.
  intros HCNT Hd. split; intros ls s p Hrun Hres.
  - pose proof (SPSC_reachable_inv CNT HCNT d ls s Hd Hrun) as Hinv.
    pose proof (SPSC_contents_length CNT HCNT s Hinv) as Hlen.
    pose proof Hinv as [_ _ _ (c & Hc & _ & _ & Hlt) _ Hrs Hfr _ _].
    specialize (Hlt ltac:(eauto)). rewrite (Hrs p Hres).
    split.
    + intros k Hk. rewrite (SPSC_slot_at_index CNT HCNT s k Hinv).
      apply mod_neq_near. lia.
    + intros Hf. destruct (Hfr _ Hf) as [He Hlt'].
      symmetry in He. revert He. apply mod_neq_near. lia.
  - pose proof (OPT_reachable_inv CNT HCNT d ls s Hd Hrun) as Hinv.
    pose proof (OPT_contents_length CNT HCNT s Hinv) as Hlen.
    pose proof (OPT_popped_le_pushed CNT s Hinv) as Hle.
    pose proof Hinv as [_ _ _ _ Hfree Hrs Hfr _ _ _ _ _].
    destruct (Hrs p Hres) as [-> Hfc].
    split.
    + intros k Hk. rewrite (OPT_slot_at_index CNT HCNT s k Hinv).
      apply mod_neq_near. lia.
    + intros Hf. destruct (Hfr _ Hf) as [He Hlt'].
      symmetry in He. revert He. apply mod_neq_near. lia.
Qed.

Lemma reserved_slot_not_in_flight_witness :
  ∃ s1 s2,
    SPSCQueue.run 4
      (SPSC_example_run ++ [SPSCQueue.LAlloc; SPSCQueue.LFront])
      (SPSCQueue.start [0; 0; 0; 0]) = Some s1 ∧
    SPSCQueueOPT.run 4
      (OPT_example_run ++ [SPSCQueueOPT.LAlloc; SPSCQueueOPT.LFront])
      (SPSCQueueOPT.start 4 [0; 0; 0; 0]) = Some s2 ∧
    SPSCQueue.fronted s1 ≠ Some 3 ∧
    SPSCQueueOPT.fronted s2 ≠ Some 3.
Proof.
  destruct (reserved_slot_not_in_flight Z 4 [0; 0; 0; 0] eq_refl eq_refl)
    as [H1 H2].
  eexists _, _.
  split; [vm_compute; reflexivity|]. split; [vm_compute; reflexivity|].
  split.
  - eapply (H1 (SPSC_example_run ++ [SPSCQueue.LAlloc; SPSCQueue.LFront]));
      vm_compute; reflexivity.
  - eapply (H2 (OPT_example_run
                  ++ [SPSCQueueOPT.LAlloc; SPSCQueueOPT.LFront]));
      vm_compute; reflexivity.
Defined.

(** ** The producer's caches *)

(** X11. [SPSCQueue], every reachable state: the cached read cursor is never
    ahead of the real one.  The 32-bit distance from it to the write
    cursor is at least the number of elements in flight and at most
    [CNT], so the producer never takes a full queue for one with room. *)
Theorem SPSC_cache_conservative (T : Type) (CNT : Z) (d : list T)
    (ls : list (SPSCQueue.label T)) (s : SPSCQueue.system T) :
  static_assert_CNT CNT = true →
  Z.of_nat (length d) = CNT →
  SPSCQueue.run CNT ls (SPSCQueue.start d) = Some s →
  let q := SPSCQueue.mq s in
  wrap32 (SPSCQueue.write_idx q - SPSCQueue.read_idx q) ≤
    wrap32 (SPSCQueue.write_idx q - SPSCQueue.read_idx_cach q) ∧
  wrap32 (SPSCQueue.write_idx q - SPSCQueue.read_idx_cach q) ≤ CNT ∧
  wrap32 (SPSCQueue.read_idx q - SPSCQueue.read_idx_cach q) ≤ CNT.
Proof.
  intros HCNT Hd Hrun q. subst q.
  pose proof (SPSC_reachable_inv CNT HCNT d ls s Hd Hrun)
    as [_ Hw Hr (c & Hc & Hcach & Hcap & _) Hle _ _ _ _].
  pose proof (CNT_range CNT HCNT).
  rewrite Hw, Hr, Hcach, !wrap32_sub.
  rewrite !wrap32_small by lia. lia.
Qed.

Lemma SPSC_cache_conservative_witness :
  ∃ s,
    SPSCQueue.run 4 SPSC_example_run (SPSCQueue.start [0; 0; 0; 0])
      = Some s ∧
    wrap32 (SPSCQueue.write_idx (SPSCQueue.mq s) -
            SPSCQueue.read_idx (SPSCQueue.mq s)) ≤
    wrap32 (SPSCQueue.write_idx (SPSCQueue.mq s) -
            SPSCQueue.read_idx_cach (SPSCQueue.mq s)).
Proof.
  eexists. split; [vm_compute; reflexivity|].
  match goal with
  | |- context [SPSCQueue.mq ?s] =>
      refine (proj1 (SPSC_cache_conservative Z 4 [0; 0; 0; 0]
                       SPSC_example_run s eq_refl eq_refl _))
  end.
  vm_compute; reflexivity.
Defined.

(** X12. [SPSCQueueOPT], every reachable state: [free_write_cnt] is between
    [0] and [CNT - 1] and never more than the room really left,
    [CNT - 1] minus the number of elements in flight; its decrement in
    [push] never wraps below zero. *)
Theorem OPT_free_count_conservative (T : Type) (CNT : Z) (d : list T)
    (ls : list (SPSCQueueOPT.label T)) (s : SPSCQueueOPT.system T) :
  static_assert_CNT CNT = true →
  Z.of_nat (length d) = CNT →
  SPSCQueueOPT.run CNT ls (SPSCQueueOPT.start CNT d) = Some s →
  let q := SPSCQueueOPT.mq s in
  0 ≤ SPSCQueueOPT.free_write_cnt q ∧
  SPSCQueueOPT.free_write_cnt q +
    Z.of_nat (length (SPSCQueueOPT.contents CNT q)) ≤ CNT - 1 ∧
  (is_Some (SPSCQueueOPT.reserved s) → 1 ≤ SPSCQueueOPT.free_write_cnt q).
Proof.
  intros HCNT Hd Hrun q. subst q.
  pose proof (OPT_reachable_inv CNT HCNT d ls s Hd Hrun) as Hinv.
  rewrite (OPT_contents_length CNT HCNT s Hinv).
  destruct Hinv as [_ _ _ _ Hfree Hrs _ _ _ _ _ _].
  repeat split; try lia.
  intros [p Hp]. by destruct (Hrs p Hp).
Qed.

Lemma OPT_free_count_conservative_witness :
  ∃ s,
    SPSCQueueOPT.run 4 OPT_example_run (SPSCQueueOPT.start 4 [0; 0; 0; 0])
      = Some s ∧
    0 ≤ SPSCQueueOPT.free_write_cnt (SPSCQueueOPT.mq s).
Proof.
  eexists. split; [vm_compute; reflexivity|].
  match goal with
  | |- context [SPSCQueueOPT.mq ?s] =>
      refine (proj1 (OPT_free_count_conservative Z 4 [0; 0; 0; 0]
                       OPT_example_run s eq_refl eq_refl _))
  end.
  vm_compute; reflexivity.
Defined.

(** ** The availability flags *)

(** X13. [SPSCQueueOPT], every reachable state: counting blocks from
    [read_idx], the flag of the [k]-th block is set exactly when that
    block holds an element in flight, except for the first block while
    its [pop] is between its two stores. *)
Theorem OPT_flags_mark_in_flight (T : Type) (CNT : Z) (d : list T)
    (ls : list (SPSCQueueOPT.label T)) (s : SPSCQueueOPT.system T) (k : Z) :
  static_assert_CNT CNT = true →
  Z.of_nat (length d) = CNT →
  SPSCQueueOPT.run CNT ls (SPSCQueueOPT.start CNT d) = Some s →
  0 ≤ k < CNT →
  let q := SPSCQueueOPT.mq s in
  SPSCQueueOPT.avail <$>
    SPSCQueueOPT.blk q !!
      Z.to_nat (Z.land (wrap32 (SPSCQueueOPT.read_idx q + k))
                       (SPSCQueueOPT.MASK CNT))
  = Some (bool_decide
            ((if SPSCQueueOPT.popping s then 1 else 0) ≤ k <
             Z.of_nat (length (SPSCQueueOPT.contents CNT q)))).
Proof.
  intros HCNT Hd Hrun Hk q. subst q.
  pose proof (OPT_reachable_inv CNT HCNT d ls s Hd Hrun) as Hinv.
  rewrite (OPT_contents_length CNT HCNT s Hinv).
  rewrite (OPT_slot_at_index CNT HCNT s k Hinv).
  destruct Hinv as [_ _ _ Hle Hfree _ _ _ Hat Haf _ _].
  unfold SPSCQueueOPT.ncleared in *.
  case_bool_decide as Hin.
  - apply Hat. lia.
  - destruct (decide (SPSCQueueOPT.npushed s - SPSCQueueOPT.npopped s ≤ k))
      as [Hge|Hlt].
    + apply Haf. destruct (SPSCQueueOPT.popping s); lia.
    + assert (Hpg : SPSCQueueOPT.popping s = true ∧ k = 0)
        by (destruct (SPSCQueueOPT.popping s); split; try done; lia).
      destruct Hpg as [Hpg ->]. rewrite Hpg in *.
      rewrite Z.add_0_r,
        <- (Z_mod_plus_full (SPSCQueueOPT.npopped s) 1 CNT).
      apply Haf. lia.
Qed.

Lemma OPT_flags_mark_in_flight_witness :
  ∃ s,
    SPSCQueueOPT.run 4 OPT_full_run (SPSCQueueOPT.start 4 [0; 0; 0; 0])
      = Some s ∧
    SPSCQueueOPT.avail <$>
      SPSCQueueOPT.blk (SPSCQueueOPT.mq s) !!
        Z.to_nat (Z.land (wrap32 (SPSCQueueOPT.read_idx (SPSCQueueOPT.mq s)
                                   + 3))
                         (SPSCQueueOPT.MASK 4))
    = Some (bool_decide
              ((if SPSCQueueOPT.popping s then 1 else 0) ≤ 3 <
               Z.of_nat (length (SPSCQueueOPT.contents 4
                                   (SPSCQueueOPT.mq s))))).
Proof.
  eexists. split; [vm_compute; reflexivity|].
  match goal with
  | |- context [SPSCQueueOPT.mq ?s] =>
      refine (OPT_flags_mark_in_flight Z 4 [0; 0; 0; 0] OPT_full_run s 3
                eq_refl eq_refl _ _)
  end; [vm_compute; reflexivity|lia].
Defined.

(** ** [tryPush] and [tryPop] on the elements in flight *)

Section SPSC_wrapper_inv.
Import SPSCQueue.
Context {T : Type}.
Variable CNT : Z.
Hypothesis HCNT : static_assert_CNT CNT = true.

(** The system after a successful [tryPush]: one more element is
    published, the value the writer left in the slot. *)
Lemma SPSC_inv_after_tryPush (writer : T → T) (s : system T) p q1 :
  inv CNT s → alloc CNT (mq s) = (Some p, q1) →
  ∃ x, data (mq s) !! Z.to_nat p = Some x ∧
       inv CNT (System (push (apply_slot writer p q1)) None (fronted s)
                       (pushed s ++ [writer x]) (popped s)).
Proof.
  intros Hinv Ha.
  pose proof (SPSC_inv_alloc CNT HCNT s _ _ Hinv Ha) as Hinv1.
  assert (Hd : data q1 = data (mq s)).
  { unfold alloc in Ha. repeat destruct (_ =? _) in Ha; try done;
      by injection Ha as _ <-. }
  pose proof Hinv1 as [Hlen _ _ _ _ Hrs _ _ _].
  unfold npushed in *; simpl in Hlen, Hrs.
  pose proof (Hrs p eq_refl) as ->.
  destruct (lookup_lt_is_Some_2 (data q1)
    (Z.to_nat (Z.of_nat (length (pushed s)) mod CNT))) as [x Hx];
    [by apply mod_CNT_lt_length|].
  exists x. split; [by rewrite <- Hd|].
  assert (He : apply_slot writer (Z.of_nat (length (pushed s)) mod CNT) q1
               = apply_slot (λ _, writer x)
                   (Z.of_nat (length (pushed s)) mod CNT) q1).
  { unfold apply_slot. f_equal.
    apply list_alter_ext; [|done]. intros y Hy. congruence. }
  rewrite He.
  eapply (SPSC_inv_run CNT HCNT [LWrite (writer x); LPush]);
    [exact Hinv1|].
  simpl. rewrite Hx. simpl. by rewrite list_lookup_alter_eq, Hx.
Qed.

(** The system after a successful [tryPop], whatever the reader does
    to the slot it is handed: the oldest element is released. *)
Lemma SPSC_inv_after_tryPop (reader : T → T) (s : system T) p :
  inv CNT s → front CNT (mq s) = Some p →
  ∃ x, data (mq s) !! Z.to_nat p = Some x ∧
       pushed s !! length (popped s) = Some x ∧
       inv CNT (System (pop (apply_slot reader p (mq s))) (reserved s)
                       None (pushed s) (popped s ++ [x])).
Proof.
  intros Hinv Hf.
  pose proof (SPSC_inv_step CNT HCNT LFront s _ Hinv eq_refl)
    as [Hlen Hw Hr (c & Hc & Hcach & Hcap & Hres) Hle Hrs Hfr Hdat Hpop].
  destruct s as [[d w rc rd] res fr pu po].
  unfold npushed, npopped in *; simpl in *. rewrite Hf in Hfr.
  destruct (Hfr p eq_refl) as [-> Hlt].
  destruct (lookup_lt_is_Some_2 d
    (Z.to_nat (Z.of_nat (length po) mod CNT))) as [x Hx];
    [by apply mod_CNT_lt_length|].
  exists x. split; [done|].
  pose proof Hx as Hx'. rewrite Hdat, Nat2Z.id in Hx' by lia.
  split; [done|].
  split; unfold npushed, npopped; simpl; rewrite ?length_app; simpl;
    try done.
  - by rewrite length_alter.
  - rewrite Hr, wrap32_add_l. f_equal. lia.
  - exists c. repeat split; try lia. done.
  - lia.
  - intros i Hi. rewrite list_lookup_alter_ne; [apply Hdat; lia|].
    pose proof (mod_neq_near (Z.of_nat (length po)) i CNT ltac:(lia)).
    pose proof (mod_CNT_range CNT HCNT i).
    pose proof (mod_CNT_range CNT HCNT (Z.of_nat (length po))).
    lia.
  - rewrite Nat.add_1_r, (take_S_r _ _ _ Hx'). by rewrite <- Hpop.
Qed.
End SPSC_wrapper_inv.

Section OPT_wrapper_inv.
Import SPSCQueueOPT.
Context {T : Type}.
Variable CNT : Z.
Hypothesis HCNT : static_assert_CNT CNT = true.

Lemma OPT_inv_after_tryPush (writer : T → T) (s : system T) p q1 :
  inv CNT s → alloc CNT (mq s) = (Some p, q1) →
  ∃ k, blk (mq s) !! Z.to_nat p = Some k ∧
       inv CNT (System (push CNT (apply_slot writer p q1)) None
                       (fronted s) (popping s)
                       (pushed s ++ [writer (data k)]) (popped s)).
Proof.
  intros Hinv Ha.
  pose proof (OPT_inv_alloc CNT HCNT s _ _ Hinv Ha) as Hinv1.
  assert (Hd : blk q1 = blk (mq s)).
  { unfold alloc in Ha. repeat destruct (_ =? _) in Ha; try done;
      by injection Ha as _ <-. }
  pose proof Hinv1 as [Hlen _ _ _ _ Hrs _ _ _ _ _ _].
  unfold npushed in *; simpl in Hlen, Hrs.
  destruct (Hrs p eq_refl) as [-> _].
  destruct (OPT_slot_in_bounds CNT HCNT (blk q1)
              (Z.of_nat (length (pushed s))) Hlen) as [k Hk].
  exists k. split; [by rewrite <- Hd|].
  assert (He : apply_slot writer (Z.of_nat (length (pushed s)) mod CNT) q1
               = apply_slot (λ _, writer (data k))
                   (Z.of_nat (length (pushed s)) mod CNT) q1).
  { unfold apply_slot. f_equal.
    apply list_alter_ext; [|done]. intros y Hy.
    rewrite Hk in Hy. by injection Hy as <-. }
  rewrite He.
  eapply (OPT_inv_run CNT HCNT [LWrite (writer (data k)); LPush]);
    [exact Hinv1|].
  simpl. rewrite Hk. simpl. by rewrite list_lookup_alter_eq, Hk.
Qed.

Lemma OPT_inv_after_tryPop (reader : T → T) (s : system T) p :
  inv CNT s → popping s = false → front (mq s) = Some p →
  ∃ k, blk (mq s) !! Z.to_nat p = Some k ∧
       pushed s !! length (popped s) = Some (data k) ∧
       inv CNT (System (pop CNT (apply_slot reader p (mq s))) (reserved s)
                       None false (pushed s) (popped s ++ [data k])).
Proof.
  intros Hinv Hpg Hf. pose proof (CNT_range CNT HCNT) as HC.
  assert (Hstep : step CNT LFront s =
            Some (System (mq s) (reserved s) (front (mq s)) false
                         (pushed s) (popped s)))
    by (simpl; by rewrite Hpg).
  pose proof (OPT_inv_step CNT HCNT LFront s _ Hinv Hstep)
    as [Hlen Hw Hr Hle Hfree Hrs Hfr _ Hat Haf Hdat Hpop].
  destruct s as [[b w fc rd] res fr pg pu po].
  unfold ncleared, npushed, npopped in *; simpl in *. subst pg.
  rewrite Hf in Hfr. destruct (Hfr p eq_refl) as [-> Hlt].
  rewrite Z.add_0_r in *.
  destruct (OPT_slot_in_bounds CNT HCNT b (Z.of_nat (length po)) Hlen)
    as [k Hk].
  exists k. split; [done|].
  pose proof (Hdat (Z.of_nat (length po)) ltac:(lia)) as Hd.
  rewrite Hk, Nat2Z.id in Hd. simpl in Hd. symmetry in Hd.
  split; [done|].
  split; unfold pop, pop_read_idx, pop_avail, apply_slot, ncleared,
    npushed, npopped; simpl; rewrite ?length_app, ?length_alter; simpl;
    try done.
  - rewrite Hr, OPT_slot_succ by done. f_equal. lia.
  - lia.
  - lia.
  - subst rd. intros i Hi.
    rewrite !list_lookup_alter_ne; [apply Hat; lia| |];
      apply not_eq_sym, OPT_slot_neq; (done || lia).
  - subst rd. intros i Hi.
    destruct (decide (i = Z.of_nat (length po) + CNT)) as [->|Hne].
    + rewrite <- (Z.mul_1_l CNT) at 1. rewrite Z_mod_plus_full.
      by rewrite !list_lookup_alter_eq, Hk.
    + rewrite !list_lookup_alter_ne; [apply Haf; lia| |];
        apply not_eq_sym, OPT_slot_neq; (done || lia).
  - subst rd. intros i Hi.
    rewrite !list_lookup_alter_ne; [apply Hdat; lia| |];
      apply not_eq_sym, OPT_slot_neq; (done || lia).
  - rewrite Nat.add_1_r, (take_S_r _ _ _ Hd). by rewrite <- Hpop.
Qed.
End OPT_wrapper_inv.

(** X14. [SPSCQueue], every reachable state: [tryPush] returns false exactly
    when [CNT] elements are in flight, and then leaves them as they are;
    when it returns true, it appends to the elements in flight what the
    writer made of the slot [alloc] returned. *)
Theorem SPSC_tryPush_appends (T : Type) (CNT : Z) (d : list T)
    (ls : list (SPSCQueue.label T)) (s : SPSCQueue.system T)
    (writer : T → T) (l l' : list event) (b : bool)
    (q' : SPSCQueue.queue T) :
  static_assert_CNT CNT = true →
  Z.of_nat (length d) = CNT →
  SPSCQueue.run CNT ls (SPSCQueue.start d) = Some s →
  SPSCQueue.tryPush CNT writer (SPSCQueue.mq s) l = (b, q', l') →
  (b = false ↔
   Z.of_nat (length (SPSCQueue.contents CNT (SPSCQueue.mq s))) = CNT) ∧
  if b
  then ∃ p x,
         fst (SPSCQueue.alloc CNT (SPSCQueue.mq s)) = Some p ∧
         SPSCQueue.data (SPSCQueue.mq s) !! Z.to_nat p = Some x ∧
         SPSCQueue.contents CNT q' =
           SPSCQueue.contents CNT (SPSCQueue.mq s) ++ [writer x]
  else SPSCQueue.contents CNT q' = SPSCQueue.contents CNT (SPSCQueue.mq s).
Proof.
  intros HCNT Hd Hrun Htry.
  pose proof (SPSC_reachable_inv CNT HCNT d ls s Hd Hrun) as Hinv.
  pose proof (SPSC_alloc_full CNT HCNT s Hinv) as Hfull.
  rewrite <- (SPSC_contents_length CNT HCNT s Hinv) in Hfull.
  rewrite SPSC_tryPush_eq in Htry.
  destruct (SPSCQueue.alloc CNT (SPSCQueue.mq s)) as [[p|] q1] eqn:Ha;
    injection Htry as <- <- <-; simpl in Hfull.
  - split; [split; [done|]; intros Hf; by apply Hfull in Hf|].
    destruct (SPSC_inv_after_tryPush CNT HCNT writer s p q1 Hinv Ha)
      as (x & Hx & Hinv').
    exists p, x. repeat split; [done|].
    pose proof (SPSC_contents CNT HCNT _ Hinv') as Hc'. simpl in Hc'.
    rewrite Hc', (SPSC_contents CNT HCNT s Hinv). apply drop_app_le.
    pose proof (SPSCQueue.inv_le _ _ _ Hinv).
    unfold SPSCQueue.npushed, SPSCQueue.npopped in *. lia.
  - split; [split; [by intros _; apply Hfull|done]|].
    pose proof (SPSC_inv_alloc CNT HCNT s _ _ Hinv Ha) as Hinv'.
    pose proof (SPSC_contents CNT HCNT _ Hinv') as Hc'. simpl in Hc'.
    by rewrite Hc', (SPSC_contents CNT HCNT s Hinv).
Qed.

Lemma SPSC_tryPush_appends_witness :
  ∃ s q' l',
    SPSCQueue.run 4 SPSC_example_run (SPSCQueue.start [0; 0; 0; 0])
      = Some s ∧
    SPSCQueue.tryPush 4 (λ x, x + 9) (SPSCQueue.mq s) [] = (true, q', l') ∧
    ∃ p x,
      fst (SPSCQueue.alloc 4 (SPSCQueue.mq s)) = Some p ∧
      SPSCQueue.data (SPSCQueue.mq s) !! Z.to_nat p = Some x ∧
      SPSCQueue.contents 4 q' =
        SPSCQueue.contents 4 (SPSCQueue.mq s) ++ [x + 9].
Proof.
  eexists _, _, _. split; [vm_compute; reflexivity|].
  split; [vm_compute; reflexivity|].
  match goal with
  | |- context [SPSCQueue.contents 4 ?q' =
                SPSCQueue.contents 4 (SPSCQueue.mq ?s) ++ _] =>
      refine (proj2 (SPSC_tryPush_appends Z 4 [0; 0; 0; 0] SPSC_example_run
                       s (λ x, x + 9) [] _ true q' eq_refl eq_refl _ _))
  end; vm_compute; reflexivity.
Defined.

(** X15. [SPSCQueue], every reachable state and every reader, also one that
    changes the slot it is handed (moves the element out): [tryPop]
    returns false exactly when no element is in flight, and then changes
    nothing; when it returns true, the slot [front] returned held the
    oldest element, and the elements in flight afterwards are the
    others, in order. *)
Theorem SPSC_tryPop_removes_head (T : Type) (CNT : Z) (d : list T)
    (ls : list (SPSCQueue.label T)) (s : SPSCQueue.system T)
    (reader : T → T) (l l' : list event) (b : bool)
    (q' : SPSCQueue.queue T) :
  static_assert_CNT CNT = true →
  Z.of_nat (length d) = CNT →
  SPSCQueue.run CNT ls (SPSCQueue.start d) = Some s →
  SPSCQueue.tryPop CNT reader (SPSCQueue.mq s) l = (b, q', l') →
  (b = false ↔ SPSCQueue.contents CNT (SPSCQueue.mq s) = []) ∧
  if b
  then ∃ p x,
         SPSCQueue.front CNT (SPSCQueue.mq s) = Some p ∧
         SPSCQueue.data (SPSCQueue.mq s) !! Z.to_nat p = Some x ∧
         SPSCQueue.contents CNT (SPSCQueue.mq s) =
           x :: SPSCQueue.contents CNT q'
  else q' = SPSCQueue.mq s.
Proof.
  intros HCNT Hd Hrun Htry.
  pose proof (SPSC_reachable_inv CNT HCNT d ls s Hd Hrun) as Hinv.
  pose proof (SPSC_front_empty CNT HCNT s Hinv) as Hemp.
  pose proof (SPSC_contents_length CNT HCNT s Hinv) as Hlen.
  rewrite SPSC_tryPop_eq in Htry.
  destruct (SPSCQueue.front CNT (SPSCQueue.mq s)) as [p|] eqn:Hf;
    injection Htry as <- <- <-.
  - destruct (SPSC_inv_after_tryPop CNT HCNT reader s p Hinv Hf)
      as (x & Hx & Hpu & Hinv').
    assert (Hc : SPSCQueue.contents CNT (SPSCQueue.mq s) =
                 x :: SPSCQueue.contents CNT
                        (SPSCQueue.pop
                           (SPSCQueue.apply_slot reader p (SPSCQueue.mq s)))).
    { pose proof (SPSC_contents CNT HCNT _ Hinv') as Hc'. simpl in Hc'.
      rewrite Hc', (SPSC_contents CNT HCNT s Hinv).
      rewrite length_app, Nat.add_1_r. by apply drop_S. }
    split; [|by exists p, x].
    split; [done|]. intros He. by rewrite He in Hc.
  - split; [|done]. split; [intros _|done].
    apply nil_length_inv. pose proof (proj1 Hemp eq_refl). lia.
Qed.

Lemma SPSC_tryPop_removes_head_witness :
  ∃ s q' l',
    SPSCQueue.run 4 SPSC_example_run (SPSCQueue.start [0; 0; 0; 0])
      = Some s ∧
    SPSCQueue.tryPop 4 (λ _, 0) (SPSCQueue.mq s) [] = (true, q', l') ∧
    ∃ p x,
      SPSCQueue.front 4 (SPSCQueue.mq s) = Some p ∧
      SPSCQueue.data (SPSCQueue.mq s) !! Z.to_nat p = Some x ∧
      SPSCQueue.contents 4 (SPSCQueue.mq s) = x :: SPSCQueue.contents 4 q'.
Proof.
  eexists _, _, _. split; [vm_compute; reflexivity|].
  split; [vm_compute; reflexivity|].
  match goal with
  | |- context [SPSCQueue.contents 4 (SPSCQueue.mq ?s) =
                _ :: SPSCQueue.contents 4 ?q'] =>
      refine (proj2 (SPSC_tryPop_removes_head Z 4 [0; 0; 0; 0]
                       SPSC_example_run s (λ _, 0) [] _ true q'
                       eq_refl eq_refl _ _))
  end; vm_compute; reflexivity.
Defined.

(** X16. [SPSCQueueOPT], every reachable state: [tryPush] returns false
    exactly when [CNT - 1] elements are in flight, and then leaves the
    state as it is; when it returns true, it appends to the elements in
    flight what the writer made of the block [alloc] returned. *)
Theorem OPT_tryPush_appends (T : Type) (CNT : Z) (d : list T)
    (ls : list (SPSCQueueOPT.label T)) (s : SPSCQueueOPT.system T)
    (writer : T → T) (l l' : list event) (b : bool)
    (q' : SPSCQueueOPT.queue T) :
  static_assert_CNT CNT = true →
  Z.of_nat (length d) = CNT →
  SPSCQueueOPT.run CNT ls (SPSCQueueOPT.start CNT d) = Some s →
  SPSCQueueOPT.tryPush CNT writer (SPSCQueueOPT.mq s) l = (b, q', l') →
  (b = false ↔
   Z.of_nat (length (SPSCQueueOPT.contents CNT (SPSCQueueOPT.mq s)))
   = CNT - 1) ∧
  if b
  then ∃ p k,
         fst (SPSCQueueOPT.alloc CNT (SPSCQueueOPT.mq s)) = Some p ∧
         SPSCQueueOPT.blk (SPSCQueueOPT.mq s) !! Z.to_nat p = Some k ∧
         SPSCQueueOPT.contents CNT q' =
           SPSCQueueOPT.contents CNT (SPSCQueueOPT.mq s)
           ++ [writer (SPSCQueueOPT.data k)]
  else q' = SPSCQueueOPT.mq s.
Proof.
  intros HCNT Hd Hrun Htry.
  pose proof (OPT_reachable_inv CNT HCNT d ls s Hd Hrun) as Hinv.
  pose proof (OPT_alloc_full CNT HCNT s Hinv) as Hfull.
  rewrite <- (OPT_contents_length CNT HCNT s Hinv) in Hfull.
  rewrite OPT_tryPush_eq in Htry.
  destruct (SPSCQueueOPT.alloc CNT (SPSCQueueOPT.mq s)) as [[p|] q1] eqn:Ha;
    injection Htry as <- <- <-; simpl in Hfull.
  - split; [split; [done|]; intros Hf; by apply Hfull in Hf|].
    destruct (OPT_inv_after_tryPush CNT HCNT writer s p q1 Hinv Ha)
      as (k & Hk & Hinv').
    exists p, k. repeat split; [done|].
    pose proof (OPT_contents CNT HCNT _ Hinv') as Hc'. simpl in Hc'.
    rewrite Hc', (OPT_contents CNT HCNT s Hinv). apply drop_app_le.
    pose proof (OPT_popped_le_pushed CNT s Hinv).
    unfold SPSCQueueOPT.npushed, SPSCQueueOPT.npopped in *. lia.
  - split; [split; [by intros _; apply Hfull|done]|].
    by destruct (OPT_alloc_None CNT _ _ Ha) as [-> _].
Qed.

Lemma OPT_tryPush_appends_witness :
  ∃ s q' l',
    SPSCQueueOPT.run 4 OPT_example_run (SPSCQueueOPT.start 4 [0; 0; 0; 0])
      = Some s ∧
    SPSCQueueOPT.tryPush 4 (λ x, x + 9) (SPSCQueueOPT.mq s) []
      = (true, q', l') ∧
    ∃ p k,
      fst (SPSCQueueOPT.alloc 4 (SPSCQueueOPT.mq s)) = Some p ∧
      SPSCQueueOPT.blk (SPSCQueueOPT.mq s) !! Z.to_nat p = Some k ∧
      SPSCQueueOPT.contents 4 q' =
        SPSCQueueOPT.contents 4 (SPSCQueueOPT.mq s)
        ++ [SPSCQueueOPT.data k + 9].
Proof.
  eexists _, _, _. split; [vm_compute; reflexivity|].
  split; [vm_compute; reflexivity|].
  match goal with
  | |- context [SPSCQueueOPT.contents 4 ?q' =
                SPSCQueueOPT.contents 4 (SPSCQueueOPT.mq ?s) ++ _] =>
      refine (proj2 (OPT_tryPush_appends Z 4 [0; 0; 0; 0] OPT_example_run
                       s (λ x, x + 9) [] _ true q' eq_refl eq_refl _ _))
  end; vm_compute; reflexivity.
Defined.

(** X17. [SPSCQueueOPT], every reachable state in which the consumer is not
    in the middle of a [pop], and every reader, also one that changes
    the block it is handed: [tryPop] returns false exactly when no
    element is in flight, and then changes nothing; when it returns
    true, the block [front] returned held the oldest element, and the
    elements in flight afterwards are the others, in order. *)
Theorem OPT_tryPop_removes_head (T : Type) (CNT : Z) (d : list T)
    (ls : list (SPSCQueueOPT.label T)) (s : SPSCQueueOPT.system T)
    (reader : T → T) (l l' : list event) (b : bool)
    (q' : SPSCQueueOPT.queue T) :
  static_assert_CNT CNT = true →
  Z.of_nat (length d) = CNT →
  SPSCQueueOPT.run CNT ls (SPSCQueueOPT.start CNT d) = Some s →
  SPSCQueueOPT.popping s = false →
  SPSCQueueOPT.tryPop CNT reader (SPSCQueueOPT.mq s) l = (b, q', l') →
  (b = false ↔ SPSCQueueOPT.contents CNT (SPSCQueueOPT.mq s) = []) ∧
  if b
  then ∃ p k,
         SPSCQueueOPT.front (SPSCQueueOPT.mq s) = Some p ∧
         SPSCQueueOPT.blk (SPSCQueueOPT.mq s) !! Z.to_nat p = Some k ∧
         SPSCQueueOPT.contents CNT (SPSCQueueOPT.mq s) =
           SPSCQueueOPT.data k :: SPSCQueueOPT.contents CNT q'
  else q' = SPSCQueueOPT.mq s.
Proof.
  intros HCNT Hd Hrun Hpg Htry.
  pose proof (OPT_reachable_inv CNT HCNT d ls s Hd Hrun) as Hinv.
  pose proof (OPT_front_empty CNT HCNT s Hinv Hpg) as Hemp.
  pose proof (OPT_contents_length CNT HCNT s Hinv) as Hlen.
  rewrite OPT_tryPop_eq in Htry.
  destruct (SPSCQueueOPT.front (SPSCQueueOPT.mq s)) as [p|] eqn:Hf;
    injection Htry as <- <- <-.
  - destruct (OPT_inv_after_tryPop CNT HCNT reader s p Hinv Hpg Hf)
      as (k & Hk & Hpu & Hinv').
    assert (Hc : SPSCQueueOPT.contents CNT (SPSCQueueOPT.mq s) =
                 SPSCQueueOPT.data k ::
                 SPSCQueueOPT.contents CNT
                   (SPSCQueueOPT.pop CNT
                      (SPSCQueueOPT.apply_slot reader p
                         (SPSCQueueOPT.mq s)))).
    { pose proof (OPT_contents CNT HCNT _ Hinv') as Hc'. simpl in Hc'.
      rewrite Hc', (OPT_contents CNT HCNT s Hinv).
      rewrite length_app, Nat.add_1_r. by apply drop_S. }
    split; [|by exists p, k].
    split; [done|]. intros He. by rewrite He in Hc.
  - split; [|done]. split; [intros _|done].
    apply nil_length_inv. pose proof (proj1 Hemp eq_refl). lia.
Qed.

Lemma OPT_tryPop_removes_head_witness :
  ∃ s q' l',
    SPSCQueueOPT.run 4 OPT_example_run (SPSCQueueOPT.start 4 [0; 0; 0; 0])
      = Some s ∧
    SPSCQueueOPT.tryPop 4 (λ _, 0) (SPSCQueueOPT.mq s) [] = (true, q', l') ∧
    ∃ p k,
      SPSCQueueOPT.front (SPSCQueueOPT.mq s) = Some p ∧
      SPSCQueueOPT.blk (SPSCQueueOPT.mq s) !! Z.to_nat p = Some k ∧
      SPSCQueueOPT.contents 4 (SPSCQueueOPT.mq s) =
        SPSCQueueOPT.data k :: SPSCQueueOPT.contents 4 q'.
Proof.
  eexists _, _, _. split; [vm_compute; reflexivity|].
  split; [vm_compute; reflexivity|].
  match goal with
  | |- context [SPSCQueueOPT.contents 4 (SPSCQueueOPT.mq ?s) =
                _ :: SPSCQueueOPT.contents 4 ?q'] =>
      refine (proj2 (OPT_tryPop_removes_head Z 4 [0; 0; 0; 0]
                       OPT_example_run s (λ _, 0) [] _ true q'
                       eq_refl eq_refl _ _ _))
  end; vm_compute; reflexivity.
Defined.

(** ** How the wrappers compose *)

(** X18. Both classes, every reachable state: a [tryPop] that returned true
    has made room; the [tryPush] that follows it returns true. *)
Theorem pop_makes_room (T : Type) (CNT : Z) (d : list T)
    (writer reader : T → T) :
  static_assert_CNT CNT = true →
  Z.of_nat (length d) = CNT →
  (∀ ls s l q' l',
     SPSCQueue.run CNT ls (SPSCQueue.start d) = Some s →
     SPSCQueue.tryPop CNT reader (SPSCQueue.mq s) l = (true, q', l') →
     fst (fst (SPSCQueue.tryPush CNT writer q' l')) = true) ∧
  (∀ ls s l q' l',
     SPSCQueueOPT.run CNT ls (SPSCQueueOPT.start CNT d) = Some s →
     SPSCQueueOPT.popping s = false →
     SPSCQueueOPT.tryPop CNT reader (SPSCQueueOPT.mq s) l = (true, q', l') →
     fst (fst (SPSCQueueOPT.tryPush CNT writer q' l')) = true).
Proof.
  intros HCNT Hd. split.
  - intros ls s l q' l' Hrun Htry.
    pose proof (SPSC_reachable_inv CNT HCNT d ls s Hd Hrun) as Hinv.
    rewrite SPSC_tryPop_eq in Htry.
    destruct (SPSCQueue.front CNT (SPSCQueue.mq s)) as [p|] eqn:Hf; [|done].
    injection Htry as <- <-.
    destruct (SPSC_inv_after_tryPop CNT HCNT reader s p Hinv Hf)
      as (x & _ & _ & Hinv').
    pose proof (SPSC_alloc_full CNT HCNT _ Hinv') as Hfull.
    destruct Hinv as [_ _ _ (c & Hc & _ & Hcap & _) _ _ _ _ _].
    unfold SPSCQueue.npushed, SPSCQueue.npopped in *. simpl in Hfull.
    rewrite length_app in Hfull. simpl in Hfull.
    rewrite SPSC_tryPush_eq.
    destruct (SPSCQueue.alloc CNT _) as [[p'|] q1]; [done|].
    pose proof (proj1 Hfull eq_refl). lia.
  - intros ls s l q' l' Hrun Hpg Htry.
    pose proof (OPT_reachable_inv CNT HCNT d ls s Hd Hrun) as Hinv.
    rewrite OPT_tryPop_eq in Htry.
    destruct (SPSCQueueOPT.front (SPSCQueueOPT.mq s)) as [p|] eqn:Hf;
      [|done].
    injection Htry as <- <-.
    destruct (OPT_inv_after_tryPop CNT HCNT reader s p Hinv Hpg Hf)
      as (k & _ & _ & Hinv').
    pose proof (OPT_alloc_full CNT HCNT _ Hinv') as Hfull.
    destruct Hinv as [_ _ _ _ Hfree _ _ _ _ _ _ _].
    unfold SPSCQueueOPT.npushed, SPSCQueueOPT.npopped in *. simpl in Hfull.
    rewrite length_app in Hfull. simpl in Hfull.
    rewrite OPT_tryPush_eq.
    destruct (SPSCQueueOPT.alloc CNT _) as [[p'|] q1]; [done|].
    pose proof (proj1 Hfull eq_refl). lia.
Qed.

Lemma pop_makes_room_witness :
  ∃ s1 q1 l1 s2 q2 l2,
    SPSCQueue.run 4 SPSC_full_run (SPSCQueue.start [0; 0; 0; 0]) = Some s1 ∧
    SPSCQueue.tryPop 4 id (SPSCQueue.mq s1) [] = (true, q1, l1) ∧
    SPSCQueueOPT.run 4 OPT_full_run (SPSCQueueOPT.start 4 [0; 0; 0; 0])
      = Some s2 ∧
    SPSCQueueOPT.tryPop 4 id (SPSCQueueOPT.mq s2) [] = (true, q2, l2) ∧
    fst (fst (SPSCQueue.tryPush 4 (λ _, 5) q1 l1)) = true ∧
    fst (fst (SPSCQueueOPT.tryPush 4 (λ _, 5) q2 l2)) = true.
Proof.
  destruct (pop_makes_room Z 4 [0; 0; 0; 0] (λ _, 5) id eq_refl eq_refl)
    as [H1 H2].
  eexists _, _, _, _, _, _.
  split; [vm_compute; reflexivity|].
  match goal with
  | |- SPSCQueue.tryPop 4 id (SPSCQueue.mq ?s) [] = _ ∧ _ => pose (s1 := s)
  end.
  split; [vm_compute; reflexivity|]. split; [vm_compute; reflexivity|].
  match goal with
  | |- SPSCQueueOPT.tryPop 4 id (SPSCQueueOPT.mq ?s) [] = _ ∧ _ =>
      pose (s2 := s)
  end.
  split; [vm_compute; reflexivity|].
  split.
  - apply (H1 SPSC_full_run s1 []); vm_compute; reflexivity.
  - apply (H2 OPT_full_run s2 []); vm_compute; reflexivity.
Defined.

(** X19. Both classes, every reachable state: a [tryPush] that returned true
    has made an element available; the [tryPop] that follows it returns
    true. *)
Theorem push_makes_available (T : Type) (CNT : Z) (d : list T)
    (writer reader : T → T) :
  static_assert_CNT CNT = true →
  Z.of_nat (length d) = CNT →
  (∀ ls s l q' l',
     SPSCQueue.run CNT ls (SPSCQueue.start d) = Some s →
     SPSCQueue.tryPush CNT writer (SPSCQueue.mq s) l = (true, q', l') →
     fst (fst (SPSCQueue.tryPop CNT reader q' l')) = true) ∧
  (∀ ls s l q' l',
     SPSCQueueOPT.run CNT ls (SPSCQueueOPT.start CNT d) = Some s →
     SPSCQueueOPT.popping s = false →
     SPSCQueueOPT.tryPush CNT writer (SPSCQueueOPT.mq s) l
       = (true, q', l') →
     fst (fst (SPSCQueueOPT.tryPop CNT reader q' l')) = true).
Proof.
  intros HCNT Hd. split.
  - intros ls s l q' l' Hrun Htry.
    pose proof (SPSC_reachable_inv CNT HCNT d ls s Hd Hrun) as Hinv.
    rewrite SPSC_tryPush_eq in Htry.
    destruct (SPSCQueue.alloc CNT (SPSCQueue.mq s)) as [[p|] q1] eqn:Ha;
      [|done].
    injection Htry as <- <-.
    destruct (SPSC_inv_after_tryPush CNT HCNT writer s p q1 Hinv Ha)
      as (x & _ & Hinv').
    pose proof (SPSC_front_empty CNT HCNT _ Hinv') as Hemp.
    pose proof (SPSCQueue.inv_le _ _ _ Hinv) as Hle.
    unfold SPSCQueue.npushed, SPSCQueue.npopped in *. simpl in Hemp.
    rewrite length_app in Hemp. simpl in Hemp.
    rewrite SPSC_tryPop_eq.
    destruct (SPSCQueue.front CNT _) as [p'|]; [done|].
    pose proof (proj1 Hemp eq_refl). lia.
  - intros ls s l q' l' Hrun Hpg Htry.
    pose proof (OPT_reachable_inv CNT HCNT d ls s Hd Hrun) as Hinv.
    rewrite OPT_tryPush_eq in Htry.
    destruct (SPSCQueueOPT.alloc CNT (SPSCQueueOPT.mq s)) as [[p|] q1]
      eqn:Ha; [|done].
    injection Htry as <- <-.
    destruct (OPT_inv_after_tryPush CNT HCNT writer s p q1 Hinv Ha)
      as (k & _ & Hinv').
    pose proof (OPT_front_empty CNT HCNT _ Hinv' Hpg) as Hemp.
    pose proof (OPT_popped_le_pushed CNT s Hinv) as Hle.
    unfold SPSCQueueOPT.npushed, SPSCQueueOPT.npopped in *. simpl in Hemp.
    rewrite length_app in Hemp. simpl in Hemp.
    rewrite OPT_tryPop_eq.
    destruct (SPSCQueueOPT.front _) as [p'|]; [done|].
    pose proof (proj1 Hemp eq_refl). lia.
Qed.

Lemma push_makes_available_witness :
  ∃ q1 l1 q2 l2,
    SPSCQueue.tryPush 4 (λ _, 5) (SPSCQueue.mq (SPSCQueue.start [0; 0; 0; 0]))
      [] = (true, q1, l1) ∧
    SPSCQueueOPT.tryPush 4 (λ _, 5)
      (SPSCQueueOPT.mq (SPSCQueueOPT.start 4 [0; 0; 0; 0])) []
      = (true, q2, l2) ∧
    fst (fst (SPSCQueue.tryPop 4 id q1 l1)) = true ∧
    fst (fst (SPSCQueueOPT.tryPop 4 id q2 l2)) = true.
Proof.
  destruct (push_makes_available Z 4 [0; 0; 0; 0] (λ _, 5) id
              eq_refl eq_refl) as [H1 H2].
  eexists _, _, _, _.
  split; [vm_compute; reflexivity|]. split; [vm_compute; reflexivity|].
  split.
  - apply (H1 [] (SPSCQueue.start [0; 0; 0; 0]) []);
      vm_compute; reflexivity.
  - apply (H2 [] (SPSCQueueOPT.start 4 [0; 0; 0; 0]) []);
      vm_compute; reflexivity.
Defined.

(** ** Calls outside of the interface contract *)

(** X20. [SPSCQueue], every reachable state: the class does not detect a
    [push] or a [pop] made without the call that must precede it.  After
    a [push] on a full queue, [alloc] compares the cursor difference
    [CNT + 1] with [CNT] and returns a pointer, although every slot holds
    an unread element; after a [pop] on an empty queue, [front] returns a
    pointer, although no element is in flight. *)
Theorem SPSC_contract_violation_undetected (T : Type) (CNT : Z)
    (d : list T) (ls : list (SPSCQueue.label T)) (s : SPSCQueue.system T) :
  static_assert_CNT CNT = true →
  Z.of_nat (length d) = CNT →
  SPSCQueue.run CNT ls (SPSCQueue.start d) = Some s →
  (fst (SPSCQueue.alloc CNT (SPSCQueue.mq s)) = None →
   wrap32 (SPSCQueue.write_idx (SPSCQueue.push (SPSCQueue.mq s)) -
           SPSCQueue.read_idx (SPSCQueue.mq s)) = CNT + 1 ∧
   is_Some (fst (SPSCQueue.alloc CNT (SPSCQueue.push (SPSCQueue.mq s))))) ∧
  (SPSCQueue.front CNT (SPSCQueue.mq s) = None →
   is_Some (SPSCQueue.front CNT (SPSCQueue.pop (SPSCQueue.mq s)))).
Proof.
  intros HCNT Hd Hrun.
  pose proof (SPSC_reachable_inv CNT HCNT d ls s Hd Hrun) as Hinv.
  pose proof (CNT_range CNT HCNT) as HC.
  assert (H31 : CNT + 1 < 2 ^ 32).
  { destruct (CNT_pow2 CNT HCNT) as (k & Hk & ->).
    assert (2 ^ k ≤ 2 ^ 31) by (apply Z.pow_le_mono_r; lia). lia. }
  split.
  - intros Hfull. apply (SPSC_alloc_full CNT HCNT s Hinv) in Hfull.
    destruct Hinv as [_ Hw Hr (c & Hc & Hcach & Hcap & _) Hle _ _ _ _].
    unfold SPSCQueue.alloc, SPSCQueue.push.
    cbn [SPSCQueue.data SPSCQueue.write_idx SPSCQueue.read_idx_cach
         SPSCQueue.read_idx].
    rewrite Hw, Hr, Hcach, wrap32_add_l, !wrap32_sub.
    rewrite !wrap32_small by lia.
    split; [lia|].
    destruct (Z.eqb_spec (SPSCQueue.npushed s + 1 - c) CNT); [lia|].
    simpl. eauto.
  - intros Hemp. apply (SPSC_front_empty CNT HCNT s Hinv) in Hemp.
    destruct Hinv as [_ Hw Hr _ _ _ _ _ _].
    unfold SPSCQueue.front, SPSCQueue.pop.
    cbn [SPSCQueue.data SPSCQueue.write_idx SPSCQueue.read_idx_cach
         SPSCQueue.read_idx].
    rewrite Hw, Hr, Hemp, wrap32_add_l.
    destruct (Z.eqb_spec (wrap32 (SPSCQueue.npopped s + 1))
                         (wrap32 (SPSCQueue.npopped s))) as [He|]; [|eauto].
    symmetry in He. apply wrap32_inj_near in He; lia.
Qed.

Lemma SPSC_contract_violation_undetected_witness :
  ∃ s,
    SPSCQueue.run 4 SPSC_full_run (SPSCQueue.start [0; 0; 0; 0]) = Some s ∧
    is_Some (fst (SPSCQueue.alloc 4 (SPSCQueue.push (SPSCQueue.mq s)))) ∧
    is_Some (SPSCQueue.front 4
               (SPSCQueue.pop (SPSCQueue.mq (SPSCQueue.start [0; 0; 0; 0])))).
Proof.
  eexists. split; [vm_compute; reflexivity|]. split.
  - match goal with
    | |- context [SPSCQueue.mq ?s] =>
        refine (proj2 (proj1 (SPSC_contract_violation_undetected Z 4
                                [0; 0; 0; 0] SPSC_full_run s
                                eq_refl eq_refl _) _))
    end; vm_compute; reflexivity.
  - refine (proj2 (SPSC_contract_violation_undetected Z 4 [0; 0; 0; 0] []
                     (SPSCQueue.start [0; 0; 0; 0])
                     eq_refl eq_refl eq_refl) _).
    vm_compute. reflexivity.
Defined.
